
(** * A shallow embedding of the Gopher indexing client [client.c]

    The registry of indexed items (the linked list [list]/[last_node],
    here [lst]),
    the menu parser ([find_next_line], [extract_pathname], [index_line],
    [indexing]), the crawl loop of [main], the size meter
    [evaluate_file_size], the analysis loop of [evaluate] and the external
    server probe [test_external_servers].

    Network input is an explicit environment: a server maps a selector to
    the chunks its [recv] calls return, a file transfer is a trace of
    [recv] and [select] results.  A NULL dereference or a read outside the
    receive buffer is modelled as a crash. *)

From Stdlib Require Import ZArith List String Ascii Bool Lia.
Import ListNotations.
Open Scope list_scope.
Open Scope string_scope.

(* ------------------------------------------------------------------ *)
(** ** Characters and C strings *)

Definition NUL : ascii := "000"%char.
Definition TAB : ascii := "009"%char.
Definition LF : ascii := "010"%char.
Definition CR : ascii := "013"%char.

Definition tab : string := String TAB EmptyString.
Definition crlf : string := String CR (String LF EmptyString).

(** The C string starting at a pointer: the bytes up to the first NUL
    (the end of the Rocq string stands for the buffer's terminator). *)
Fixpoint cstr (s : string) : string :=
  match s with
  | EmptyString => EmptyString
  | String c r => if Ascii.eqb c NUL then EmptyString else String c (cstr r)
  end.

(** [p[0]] for a pointer into the buffer. *)
Definition first_char (s : string) : ascii :=
  match s with
  | EmptyString => NUL
  | String c _ => c
  end.

(* ------------------------------------------------------------------ *)
(** ** Items and the registry *)

(** The [#define]d item types DIRECTORY .. TOO_LARGE. *)
Inductive item_kind :=
| DIRECTORY | TEXT | BINARY | ERROR | EXTERNAL | TIMEOUT | TOO_LARGE.

Definition item_kind_eq_dec (a b : item_kind) : {a = b} + {a <> b}.
Proof. decide equality. Defined.

Definition kind_eqb (a b : item_kind) : bool :=
  if item_kind_eq_dec a b then true else false.

(** [struct entry] without its [next] pointer: the list order gives it. *)
Record entry := mk_entry { item_type : item_kind; record : string }.

Definition registry := list entry.

(** [c->item_type == new_item->item_type && strcmp(c->record, new_item->record) == 0] *)
Definition same_item (c n : entry) : bool :=
  kind_eqb (item_type c) (item_type n) && String.eqb (record c) (record n).

(** [add_item]: the first item starts the list; otherwise an item equal in
    type and record to one already listed is freed, and a new one is
    appended after [last_node]. *)
Definition add_item (new_item : entry) (lst : registry) : registry :=
  match lst with
  | [] => [new_item]
  | _ => if existsb (fun c => same_item c new_item) lst then lst
         else (lst ++ [new_item])%list
  end.

(** [create_new_entry] followed by [add_item]. *)
Definition add_new (t : item_kind) (path : string) (lst : registry) : registry :=
  add_item (mk_entry t (cstr path)) lst.

(* ------------------------------------------------------------------ *)
(** ** The menu parser *)

(** [find_next_line]: the line pointer's buffer with the first CRLF's CR
    replaced by NUL, and the pointer after the CRLF (None for NULL, also
    when nothing follows the CRLF). *)
Fixpoint find_next_line (p : string) : string * option string :=
  match p with
  | EmptyString => (EmptyString, None)
  | String c rest =>
      if Ascii.eqb c NUL then (p, None)
      else if Ascii.eqb c CR && Ascii.eqb (first_char rest) LF then
        let after := match rest with EmptyString => EmptyString
                                | String _ a => a end in
        (String NUL rest,
          if Ascii.eqb (first_char after) NUL then None else Some after)
      else let (p', n) := find_next_line rest in (String c p', n)
  end.

(** First loop of [extract_pathname]: the pointer after the first tab of
    the line, None (NULL) if the line has none. *)
Fixpoint find_tab (line : string) : option string :=
  match line with
  | EmptyString => None
  | String c r =>
      if Ascii.eqb c NUL then None
      else if Ascii.eqb c TAB then Some r
      else find_tab r
  end.

(** Second loop of [extract_pathname]: the first tab, CR or LF before the
    end of the string is overwritten by NUL. *)
Fixpoint cut_field (s : string) : string :=
  match s with
  | EmptyString => EmptyString
  | String c r =>
      if Ascii.eqb c NUL then s
      else if Ascii.eqb c TAB || Ascii.eqb c CR || Ascii.eqb c LF
           then String NUL r
           else String c (cut_field r)
  end.

(** [extract_pathname]: None is the crash of the second loop, which
    dereferences [start] also when the first loop left it NULL. *)
Definition extract_pathname (line : string) : option string :=
  match find_tab line with
  | None => None
  | Some start => Some (cut_field start)
  end.

Definition is_binary_file (type : ascii) : bool :=
  existsb (Ascii.eqb type)
    ["9"; "4"; "5"; "6"; "g"; "I"; ":"; ";"; "<"; "d"; "h"; "p";
     "r"; "s"; "P"; "X"]%char.

(** [index_line]: None is a crash (NULL dereference, or [pathname + 1]
    read past the end of the receive buffer). *)
Definition index_line (line request : string) (lst : registry)
  : option registry :=
  let t := first_char line in
  if Ascii.eqb t "3"%char then Some (add_new ERROR request lst)
  else
    let item_type :=
      if Ascii.eqb t "1"%char then Some DIRECTORY
      else if Ascii.eqb t "0"%char then Some TEXT
      else if is_binary_file t then Some BINARY
      else None in
    match item_type with
    | None => Some lst
    | Some k =>
        match extract_pathname line with
        | None => None
        | Some pathname =>
            if Ascii.eqb (first_char pathname) "/"%char then
              Some (add_new k pathname lst)
            else if kind_eqb k DIRECTORY
                    && Ascii.eqb (first_char pathname) NUL then
              match pathname with
              | EmptyString => None
              | String _ after => Some (add_new EXTERNAL after lst)
              end
            else Some lst
        end
    end.

(** The inner [do ... while (line != NULL)] loop of [indexing] over one
    received chunk; the fuel is never exhausted from [index_chunk]. *)
Fixpoint index_lines (fuel : nat) (line request : string) (lst : registry)
  : option registry :=
  match fuel with
  | O => Some lst
  | S f =>
      let (line', next_line) := find_next_line line in
      match index_line line' request lst with
      | None => None
      | Some lst' =>
          match next_line with
          | None => Some lst'
          | Some n => index_lines f n request lst'
          end
      end
  end.

Definition index_chunk (chunk request : string) (lst : registry)
  : option registry :=
  index_lines (S (String.length chunk)) chunk request lst.

(** [indexing]: the chunks returned by successive [recv] calls until one
    returns 0 (an empty list: the empty response). *)
Fixpoint indexing (request : string) (chunks : list string) (lst : registry)
  : option registry :=
  match chunks with
  | [] => Some lst
  | c :: cs =>
      match index_chunk c request lst with
      | None => None
      | Some lst' => indexing request cs lst'
      end
  end.

(** The request line [gopher_connect] builds and hands to its handler. *)
Definition request_line (request : string) : string := request ++ crlf.

(* ------------------------------------------------------------------ *)
(** ** The crawl loop of [main] *)

(** A server: the chunks successive [recv] calls return for a selector. *)
Definition server := string -> list string.

Inductive crawl_outcome :=
| Finished (lst : registry) (descended : list string)
| Crashed
| OutOfFuel.

(** [while (c != NULL) { if (c->item_type == DIRECTORY)
    gopher_connect(indexing, c->record); c = c->next; }]: the cursor is
    the position of [c] in the list, which grows while it is walked.
    [descended] logs the selectors of the directories requested. *)
Fixpoint crawl_loop (srv : server) (fuel i : nat) (lst : registry)
  (descended : list string) : crawl_outcome :=
  match fuel with
  | O => OutOfFuel
  | S f =>
      match nth_error lst i with
      | None => Finished lst descended
      | Some c =>
          if kind_eqb (item_type c) DIRECTORY then
            match indexing (request_line (record c)) (srv (record c)) lst with
            | None => Crashed
            | Some lst' =>
                crawl_loop srv f (S i) lst' (descended ++ [record c])%list
            end
          else crawl_loop srv f (S i) lst descended
      end
  end.

(** [gopher_connect(indexing, "")] on the empty list, then the loop. *)
Definition crawl (srv : server) (fuel : nat) : crawl_outcome :=
  match indexing (request_line "") (srv "") [] with
  | None => Crashed
  | Some lst => crawl_loop srv fuel 0 lst []
  end.

(* ------------------------------------------------------------------ *)
(** ** The size meter [evaluate_file_size] *)

Definition BUFFER_SIZE : Z := 4096.
Definition FILE_LIMIT : Z := 65536.

(** A [recv] result: [n > 0] bytes, 0 (connection closed), or -1 with
    [errno] EAGAIN/EWOULDBLOCK ([timed_out = true]) or another error. *)
Inductive recv_res :=
| RecvBytes (n : positive)
| RecvClosed
| RecvFail (timed_out : bool).

(** A [select] result: ready (1), timed out (0), or failed (< 0). *)
Inductive select_res := SelReady | SelTimeout | SelError.

(** A file transfer: the first [recv], then per loop iteration the result
    of [select] and of the following [recv].  An exhausted trace reads as
    [select] ready and [recv] returning 0. *)
Record file_trace := mk_trace {
  first_recv : recv_res;
  steps : list (select_res * recv_res)
}.

(** The [do { select ...; size += bytes_received; ... } while (recv > 0)]
    loop; [bytes] is the last [recv] result. *)
Fixpoint size_loop (request : string) (bytes size : Z)
  (st : list (select_res * recv_res)) (lst : registry) : Z * registry :=
  match st with
  | [] =>
      let size' := (size + bytes)%Z in
      if (FILE_LIMIT <=? size')%Z then (-1, lst)%Z else (size', lst)
  | (s, r) :: rest =>
      match s with
      | SelTimeout => (-2, add_new TIMEOUT request lst)%Z
      | _ =>
          let size' := (size + bytes)%Z in
          if (FILE_LIMIT <=? size')%Z then (-1, lst)%Z
          else match r with
               | RecvBytes m => size_loop request (Zpos m) size' rest lst
               | _ => (size', lst)
               end
      end
  end.

(** [evaluate_file_size]: the size, -1 when [FILE_LIMIT] is reached, -2
    on a failed first [recv] or a [select] timeout; a timeout also adds a
    TIMEOUT item for the request. *)
Definition evaluate_file_size (request : string) (tr : file_trace)
  (lst : registry) : Z * registry :=
  match first_recv tr with
  | RecvFail timed_out =>
      (-2, if timed_out then add_new TIMEOUT request lst else lst)%Z
  | RecvClosed => (0, lst)%Z
  | RecvBytes n => size_loop request (Zpos n) 0 (steps tr) lst
  end.

(* ------------------------------------------------------------------ *)
(** ** The analysis loop of [evaluate] *)

(** The local variables of [evaluate] together with the global list. *)
Record eval_state := mk_eval {
  ev_list : registry;
  num_of_directories : Z;
  num_of_text_files : Z;
  num_of_binary_files : Z;
  num_of_invalid_references : Z;
  smallest_text_file : option string;   (* None is NULL *)
  size_of_smallest_text_file : Z;
  size_of_largest_text_file : Z;
  size_of_smallest_binary_file : Z;
  size_of_largest_binary_file : Z
}.

Definition eval_init (lst : registry) : eval_state :=
  mk_eval lst 0 0 0 0 None (-1) (-1) (-1) (-1).

Definition set_list (l : registry) (e : eval_state) : eval_state :=
  mk_eval l (num_of_directories e) (num_of_text_files e)
    (num_of_binary_files e) (num_of_invalid_references e)
    (smallest_text_file e) (size_of_smallest_text_file e)
    (size_of_largest_text_file e) (size_of_smallest_binary_file e)
    (size_of_largest_binary_file e).

(** [case TEXT]: count, meter, then update the text minimum and maximum;
    the maximum's guard compares against [size_of_largest_binary_file],
    as in the source. *)
Definition eval_text (files : string -> file_trace) (c : entry)
  (e : eval_state) : eval_state :=
  let n_text := (num_of_text_files e + 1)%Z in
  let '(file_size, l) :=
    evaluate_file_size (request_line (record c)) (files (record c)) (ev_list e) in
  let e1 := mk_eval l (num_of_directories e) n_text (num_of_binary_files e)
              (num_of_invalid_references e) (smallest_text_file e)
              (size_of_smallest_text_file e) (size_of_largest_text_file e)
              (size_of_smallest_binary_file e) (size_of_largest_binary_file e) in
  if (file_size =? -1)%Z then set_list (add_new TOO_LARGE (record c) l) e1
  else if (file_size =? -2)%Z then e1
  else
    let '(small, small_file) :=
      if ((size_of_smallest_text_file e =? -1)
          || (file_size <? size_of_smallest_text_file e))%Z
      then (file_size, Some (record c))
      else (size_of_smallest_text_file e, smallest_text_file e) in
    let large :=
      if ((size_of_largest_text_file e =? -1)
          || (size_of_largest_binary_file e <? file_size))%Z
      then file_size else size_of_largest_text_file e in
    mk_eval l (num_of_directories e) n_text (num_of_binary_files e)
      (num_of_invalid_references e) small_file small large
      (size_of_smallest_binary_file e) (size_of_largest_binary_file e).

(** [case BINARY]. *)
Definition eval_binary (files : string -> file_trace) (c : entry)
  (e : eval_state) : eval_state :=
  let n_bin := (num_of_binary_files e + 1)%Z in
  let '(file_size, l) :=
    evaluate_file_size (request_line (record c)) (files (record c)) (ev_list e) in
  let e1 := mk_eval l (num_of_directories e) (num_of_text_files e) n_bin
              (num_of_invalid_references e) (smallest_text_file e)
              (size_of_smallest_text_file e) (size_of_largest_text_file e)
              (size_of_smallest_binary_file e) (size_of_largest_binary_file e) in
  if (file_size =? -1)%Z then set_list (add_new TOO_LARGE (record c) l) e1
  else if (file_size =? -2)%Z then e1
  else
    let small :=
      if ((size_of_smallest_binary_file e =? -1)
          || (file_size <? size_of_smallest_binary_file e))%Z
      then file_size else size_of_smallest_binary_file e in
    let large :=
      if ((size_of_largest_binary_file e =? -1)
          || (size_of_largest_binary_file e <? file_size))%Z
      then file_size else size_of_largest_binary_file e in
    mk_eval l (num_of_directories e) (num_of_text_files e) n_bin
      (num_of_invalid_references e) (smallest_text_file e)
      (size_of_smallest_text_file e) (size_of_largest_text_file e) small large.

Definition eval_entry (files : string -> file_trace) (c : entry)
  (e : eval_state) : eval_state :=
  match item_type c with
  | DIRECTORY =>
      mk_eval (ev_list e) (num_of_directories e + 1) (num_of_text_files e)
        (num_of_binary_files e) (num_of_invalid_references e)
        (smallest_text_file e) (size_of_smallest_text_file e)
        (size_of_largest_text_file e) (size_of_smallest_binary_file e)
        (size_of_largest_binary_file e)
  | TEXT => eval_text files c e
  | BINARY => eval_binary files c e
  | ERROR =>
      mk_eval (ev_list e) (num_of_directories e) (num_of_text_files e)
        (num_of_binary_files e) (num_of_invalid_references e + 1)
        (smallest_text_file e) (size_of_smallest_text_file e)
        (size_of_largest_text_file e) (size_of_smallest_binary_file e)
        (size_of_largest_binary_file e)
  | _ => e
  end.

(** The first [while (c != NULL)] loop of [evaluate]: items the meter
    appends (TIMEOUT, TOO_LARGE) are reached too. *)
Fixpoint evaluate_loop (files : string -> file_trace) (fuel i : nat)
  (e : eval_state) : option eval_state :=
  match fuel with
  | O => None
  | S f =>
      match nth_error (ev_list e) i with
      | None => Some e
      | Some c => evaluate_loop files f (S i) (eval_entry files c e)
      end
  end.

(** [gopher_connect(print_response, smallest_text_file)] after the loop:
    the socket is created and connected before [request] is used, then
    [strlen(request)] crashes on NULL.  The result is the request of the
    session opened and whether the call crashed. *)
Definition print_smallest (smallest : option string) : option string * bool :=
  (smallest, match smallest with None => true | Some _ => false end).

Record analysis := mk_analysis {
  an_state : eval_state;
  print_sessions : list (option string);
  print_crashed : bool
}.

Definition evaluate (files : string -> file_trace) (fuel : nat)
  (lst : registry) : option analysis :=
  match evaluate_loop files fuel 0 (eval_init lst) with
  | None => None
  | Some e =>
      let '(s, crashed) := print_smallest (smallest_text_file e) in
      Some (mk_analysis e [s] crashed)
  end.

(* ------------------------------------------------------------------ *)
(** ** The external server probe [test_external_servers] *)

Definition in_delims (d : list ascii) (c : ascii) : bool :=
  existsb (Ascii.eqb c) d.

Fixpoint skip_delims (d : list ascii) (s : string) : string :=
  match s with
  | EmptyString => EmptyString
  | String c r => if in_delims d c then skip_delims d r else s
  end.

(** The token up to the next delimiter, and the save pointer after it. *)
Fixpoint split_token (d : list ascii) (s : string) : string * string :=
  match s with
  | EmptyString => (EmptyString, EmptyString)
  | String c r =>
      if in_delims d c then (EmptyString, r)
      else let (t, rest) := split_token d r in (String c t, rest)
  end.

(** [strtok]: None is NULL (no token left). *)
Definition strtok (d : list ascii) (s : string) : option (string * string) :=
  match skip_delims d (cstr s) with
  | EmptyString => None
  | s' => Some (split_token d s')
  end.

Definition is_space (c : ascii) : bool :=
  existsb (Ascii.eqb c) [" "; "009"; "010"; "011"; "012"; "013"]%char.

Fixpoint atoi_digits (s : string) (acc : Z) : Z :=
  match s with
  | EmptyString => acc
  | String c r =>
      let n := Z.of_nat (nat_of_ascii c) in
      if ((48 <=? n) && (n <=? 57))%Z
      then atoi_digits r (acc * 10 + (n - 48))%Z else acc
  end.

(** [atoi] on a C string (out-of-range values left aside). *)
Definition atoi (s : string) : Z :=
  match skip_delims [" "; "009"; "010"; "011"; "012"; "013"]%char (cstr s) with
  | String "-"%char r => (- atoi_digits r 0)%Z
  | String "+"%char r => atoi_digits r 0
  | s' => atoi_digits s' 0
  end.

(** A resolved [struct hostent]: its first IPv4 address. *)
Definition hostent := Z.

(** The network as seen by the probe: name resolution, and whether a
    non-blocking [connect] to an address and port completes within the
    5 s [select] with [SO_ERROR == 0]. *)
Record network := mk_network {
  gethostbyname : string -> option hostent;
  connects : hostent -> Z -> bool
}.

Inductive probe_result :=
| ProbeNotExternal                        (* wrong item type *)
| ProbeCrash                              (* NULL dereference *)
| ProbeSelf                               (* the primary server: no line *)
| ProbeReport (host port : string) (up : bool).  (* "Server %s at port %s is %s" *)

(** [test_external_servers]; [server] and [port] are the primary server's
    globals ([server] is never NULL once [main] has passed its check). *)
Definition test_external_servers (net : network) (server : option hostent)
  (port : Z) (item : entry) : probe_result :=
  if negb (kind_eqb (item_type item) EXTERNAL) then ProbeNotExternal
  else
    let server_info := substring 0 (Z.to_nat BUFFER_SIZE) (record item) in
    match strtok [TAB] server_info with
    | None => ProbeCrash                  (* gethostbyname(NULL) *)
    | Some (ext_hostname, save) =>
        let ext_port := option_map fst (strtok [CR; LF] save) in
        let ext_server := gethostbyname net ext_hostname in
        match server with
        | None => ProbeReport ext_hostname
                    (match ext_port with Some p => p | None => "" end) false
        | Some server_addr =>
            match ext_server, ext_port with
            | None, _ => ProbeCrash         (* ext_server->h_addr_list *)
            | _, None => ProbeCrash         (* atoi(NULL) *)
            | Some ext_addr, Some p =>
                if (ext_addr =? server_addr)%Z && (atoi p =? port)%Z
                then ProbeSelf
                else ProbeReport ext_hostname p (connects net ext_addr (atoi p))
            end
        end
    end.

(* ------------------------------------------------------------------ *)
(** ** Auxiliary definitions and example inputs *)

(** The items a server's menus can yield, over every selector, lie in a
    finite list [U]. *)
Definition menus_within (srv : server) (U : registry) : Prop :=
  forall sel, match indexing (request_line sel) (srv sel) [] with
              | Some l => incl l U
              | None => True
              end.

Definition entry_eq_dec (a b : entry) : {a = b} + {a <> b}.
Proof. decide equality; [apply string_dec | apply item_kind_eq_dec]. Defined.

(** Successive insertions. *)
Definition fold_add (es : list entry) (l : registry) : registry :=
  fold_left (fun r e => add_item e r) es l.

(** The parser never inspects the registry: a line, a chunk or a whole
    response either crashes whatever the registry, or inserts the same
    items into any registry. *)
Definition registry_independent (run : registry -> option registry) : Prop :=
  (forall lst, run lst = None) \/
  exists es, forall lst, run lst = Some (fold_add es lst).

Definition is_directory (e : entry) : bool := kind_eqb (item_type e) DIRECTORY.

(** The selectors of the directory items of a registry, in order. *)
Definition dir_records (l : registry) : list string :=
  map record (filter is_directory l).

(** A field of a synthetic menu: no NUL, tab, CR or LF. *)
Definition clean_char (c : ascii) : bool :=
  negb (Ascii.eqb c NUL || Ascii.eqb c TAB || Ascii.eqb c CR || Ascii.eqb c LF).

Fixpoint clean (s : string) : bool :=
  match s with
  | EmptyString => true
  | String c r => clean_char c && clean r
  end.

Fixpoint no_nul (s : string) : bool :=
  match s with
  | EmptyString => true
  | String c r => negb (Ascii.eqb c NUL) && no_nul r
  end.

(** A menu entry: type character, display name, selector, host, port. *)
Record tuple := mk_tuple {
  ttype : ascii; display : string; selector : string; host : string; port : string
}.

Definition clean_tuple (t : tuple) : bool :=
  clean_char (ttype t) && clean (display t) && clean (selector t)
  && clean (host t) && clean (port t).

Definition menu_line (t : tuple) : string :=
  String (ttype t) (display t ++ tab ++ selector t ++ tab ++ host t ++ tab ++ port t).

(** The tuples joined with tabs, each line terminated by CRLF. *)
Fixpoint menu (ts : list tuple) : string :=
  match ts with
  | [] => EmptyString
  | t :: r => menu_line t ++ crlf ++ menu r
  end.

(** The classification [index_line] applies to a type character. *)
Definition kind_of_type (t : ascii) : option item_kind :=
  if Ascii.eqb t "1"%char then Some DIRECTORY
  else if Ascii.eqb t "0"%char then Some TEXT
  else if is_binary_file t then Some BINARY
  else None.

(** The item a well-formed line yields, read off the tuple. *)
Definition tuple_item (request : string) (t : tuple) : option entry :=
  if Ascii.eqb (ttype t) "3"%char then Some (mk_entry ERROR (cstr request))
  else match kind_of_type (ttype t) with
       | None => None
       | Some k =>
           if Ascii.eqb (first_char (selector t)) "/"%char
           then Some (mk_entry k (selector t))
           else if kind_eqb k DIRECTORY && String.eqb (selector t) EmptyString
           then Some (mk_entry EXTERNAL (host t ++ tab ++ port t))
           else None
       end.

Definition opt_list {A : Type} (o : option A) : list A :=
  match o with Some a => [a] | None => [] end.

(** A line [find_next_line] reads to its CRLF: no NUL and no CR. *)
Fixpoint line_safe (s : string) : bool :=
  match s with
  | EmptyString => true
  | String c r => negb (Ascii.eqb c NUL) && negb (Ascii.eqb c CR) && line_safe r
  end.

Definition menu_items (request : string) (ts : list tuple) : list entry :=
  flat_map (fun t => opt_list (tuple_item request t)) ts.

(** A cyclic server: the root menu lists [/] itself, which lists
    itself again. *)
Definition srv_cycle : server :=
  fun sel => if String.eqb sel "" || String.eqb sel "/"
             then [menu [mk_tuple "1"%char "root" "/" "localhost" "70"]]
             else [].

Definition U_cycle : registry := [mk_entry DIRECTORY "/"].

(** Bytes the [recv] calls of the loop deliver, up to the first one that
    does not return data. *)
Fixpoint steps_bytes (st : list (select_res * recv_res)) : Z :=
  match st with
  | (_, RecvBytes m) :: r => (Zpos m + steps_bytes r)%Z
  | _ => 0%Z
  end.

(** No [select] of the loop times out. *)
Fixpoint steps_stall_free (st : list (select_res * recv_res)) : bool :=
  match st with
  | [] => true
  | (SelTimeout, _) :: _ => false
  | (_, RecvBytes _) :: r => steps_stall_free r
  | _ :: _ => true
  end.

(** The bytes of a transfer and whether it runs without a timeout. *)
Definition transfer_bytes (tr : file_trace) : Z :=
  match first_recv tr with
  | RecvBytes n => (Zpos n + steps_bytes (steps tr))%Z
  | _ => 0%Z
  end.

Definition stall_free (tr : file_trace) : bool :=
  match first_recv tr with
  | RecvBytes _ => steps_stall_free (steps tr)
  | RecvClosed => true
  | RecvFail _ => false
  end.

(** A first chunk and [full] further chunks of [BUFFER_SIZE] bytes, then
    a chunk of [last] bytes, without stalling; then the connection closes. *)
Definition chunked_file (full : nat) (last : positive) : file_trace :=
  mk_trace (RecvBytes 4096) (repeat (SelReady, RecvBytes 4096) full ++
                             [(SelReady, RecvBytes last); (SelReady, RecvClosed)])%list.

Definition meter_result (r : Z) : Prop :=
  r = (-2)%Z \/ r = (-1)%Z \/ (0 <= r < FILE_LIMIT)%Z.

(** Items the meter and the analysis append: TIMEOUT and TOO_LARGE. *)
Definition is_issue (e : entry) : bool :=
  match item_type e with TIMEOUT | TOO_LARGE => true | _ => false end.

Definition appends_issues (l l' : registry) : Prop :=
  exists es, l' = fold_add es l /\ forallb is_issue es = true.

Definition count_kind (k : item_kind) (l : registry) : Z :=
  Z.of_nat (List.length (filter (fun x => kind_eqb (item_type x) k) l)).

Definition one_if (b : bool) : Z := if b then 1%Z else 0%Z.

(** Either neither extreme is defined yet, or both are and are ordered. *)
Definition min_max_ok (small large : Z) : Prop :=
  (small = (-1)%Z /\ large = (-1)%Z) \/ (0 <= small <= large)%Z.

Definition sizes_ok (e : eval_state) : Prop :=
  min_max_ok (size_of_smallest_text_file e) (size_of_largest_text_file e) /\
  min_max_ok (size_of_smallest_binary_file e) (size_of_largest_binary_file e).

(** A server whose root response is empty. *)
Definition srv_empty : server := fun _ => [].

(** Sixteen chunks of [BUFFER_SIZE] bytes (65536 in all), after which the
    server neither sends nor closes: the 16th [select] times out. *)
Definition tr_stall : file_trace :=
  mk_trace (RecvBytes 4096)
    (repeat (SelReady, RecvBytes 4096) 15 ++ [(SelTimeout, RecvClosed)])%list.

(** A type-0 line whose selector is relative. *)
Definition t_rel : tuple := mk_tuple "0"%char "x" "rel" "h" "70".

(** A menu line naming one text file. *)
Definition t_hello : tuple := mk_tuple "0"%char "hello" "/hello" "localhost" "70".

(** Name resolution where [example.com] resolves,
    [nowhere.invalid] does not; nothing accepts connections. *)
Definition net_demo : network :=
  mk_network (fun h => if String.eqb h "localhost" then Some 1%Z
                       else if String.eqb h "example.com" then Some 2%Z
                       else None)
             (fun _ _ => false).

(** Every transfer exceeds the limit. *)
Definition files_too_large : string -> file_trace :=
  fun _ => chunked_file 15 1.

Definition files_closed : string -> file_trace :=
  fun _ => mk_trace RecvClosed [].

(** Items in distinct positions never agree in type and record. *)
Definition distinct_items (l : registry) : Prop :=
  forall i j a b, i <> j -> nth_error l i = Some a -> nth_error l j = Some b ->
    ~ (item_type a = item_type b /\ record a = record b).

(* ------------------------------------------------------------------ *)
(** ** Printing the smallest text file: [print_response] *)

Definition nl : string := String LF EmptyString.

(** What one [recv] call returns: bytes (their count is the length), 0
    (the peer closed), or -1 (with [errno] a timeout or not). *)
Inductive recv_data :=
| DataBytes (b : string)
| DataClosed
| DataFail (timed_out : bool).

Definition recv_len (r : recv_data) : Z :=
  match r with
  | DataBytes b => Z.of_nat (String.length b)
  | DataClosed => 0
  | DataFail _ => -1
  end.

(** The first [recv], then for each turn of the [do ... while] loop the
    result of its [select] and of the [recv] of its condition; when the
    list runs out the [select] is ready and the [recv] returns 0. *)
Record content_trace := mk_ctrace {
  c_first : recv_data;
  c_steps : list (select_res * recv_data)
}.

(** The pattern [".\r\n"] of [strstr]. *)
Definition eof_marker : string := String "."%char (String CR (String LF EmptyString)).

(** [eof = strstr(buffer, ".\r\n"); if (eof != NULL) *eof = '\0';]. *)
Fixpoint cut_eof (s : string) : string :=
  match s with
  | EmptyString => EmptyString
  | String c r =>
      if String.prefix eof_marker s then EmptyString else String c (cut_eof r)
  end.

(** One turn's [buffer[bytes_received] = '\0'], the cut and the
    [fprintf("%s", buffer)]: the text printed, None when the write falls
    outside the [BUFFER_SIZE]-byte buffer ([bytes_received] is -1 or
    [BUFFER_SIZE]). *)
Definition print_chunk (cur : recv_data) : option string :=
  match cur with
  | DataBytes b =>
      if (BUFFER_SIZE <=? recv_len cur)%Z then None else Some (cut_eof (cstr b))
  | _ => None
  end.

(** The [do { select ...; print } while (recv > 0)] loop: the return value,
    the text on stdout and the list. *)
Fixpoint print_loop (request : string) (cur : recv_data)
  (st : list (select_res * recv_data)) (out : string) (lst : registry)
  : option (Z * string * registry) :=
  match st with
  | [] =>
      match print_chunk cur with
      | None => None
      | Some s => Some (0%Z, out ++ s, lst)
      end
  | (SelTimeout, _) :: _ => Some ((-1)%Z, out, add_new TIMEOUT request lst)
  | (_, next) :: rest =>
      match print_chunk cur with
      | None => None
      | Some s =>
          if (0 <? recv_len next)%Z then print_loop request next rest (out ++ s) lst
          else Some (0%Z, out ++ s, lst)
      end
  end.

Definition print_header : string := "Content of the smallest text file:" ++ nl.

(** [print_response]; [request] is the request line [gopher_connect]
    passes. *)
Definition print_response (request : string) (tr : content_trace)
  (lst : registry) : option (Z * string * registry) :=
  let r0 := c_first tr in
  let lst1 := match r0 with
              | DataFail true => add_new TIMEOUT request lst
              | _ => lst
              end in
  if (recv_len r0 =? 0)%Z
  then Some (0%Z, "Empty response from the server" ++ nl, lst1)
  else print_loop request r0 (c_steps tr) print_header lst1.

(* ------------------------------------------------------------------ *)
(** ** Predicates and measures used in the further properties *)

(** A transfer of the chunks [c :: cs], each [select] ready, then closed. *)
Definition chunks_trace (c : string) (cs : list string) : content_trace :=
  mk_ctrace (DataBytes c)
    (map (fun b => (SelReady, DataBytes b)) cs ++ [(SelReady, DataClosed)])%list.

Fixpoint has_eof (s : string) : bool :=
  match s with
  | EmptyString => false
  | String _ r => String.prefix eof_marker s || has_eof r
  end.

(** A chunk printed as it is: non-empty, shorter than the buffer, no NUL
    and no [".\r\n"]. *)
Definition plain_chunk (b : string) : bool :=
  (0 <? Z.of_nat (String.length b))%Z && (Z.of_nat (String.length b) <? BUFFER_SIZE)%Z
  && no_nul b && negb (has_eof b).


(** Directory, text and binary items carry a selector starting with [/]. *)
Definition abs_item (e : entry) : bool :=
  match item_type e with
  | DIRECTORY | TEXT | BINARY => Ascii.eqb (first_char (record e)) "/"%char
  | _ => true
  end.

(** The result of the meter for an item, on its own connection. *)
Definition meter (files : string -> file_trace) (c : entry) : Z :=
  fst (evaluate_file_size (request_line (record c)) (files (record c)) []).

(** The sizes the meter measured for the items of kind [k], in order. *)
Definition measured (files : string -> file_trace) (k : item_kind)
  (l : registry) : list Z :=
  filter (fun z => (0 <=? z)%Z)
    (map (meter files) (filter (fun c => kind_eqb (item_type c) k) l)).

Definition min_or_neg1 (l : list Z) : Z :=
  match l with [] => (-1)%Z | z :: r => fold_left Z.min r z end.

Definition max_or_neg1 (l : list Z) : Z :=
  match l with [] => (-1)%Z | z :: r => fold_left Z.max r z end.

(** The registry is closed under the menus of the root and of each of its
    directories: indexing any of them again adds nothing. *)
Definition menus_closed (srv : server) (lst : registry) : Prop :=
  indexing (request_line "") (srv "") lst = Some lst /\
  forall c, In c lst -> item_type c = DIRECTORY ->
    indexing (request_line (record c)) (srv (record c)) lst = Some lst.


(** Transfers of 5000 bytes for [/a] and 4097 bytes for [/b]. *)
Definition files_sizes : string -> file_trace :=
  fun sel => if String.eqb sel "/a" then chunked_file 0 904
             else if String.eqb sel "/b" then chunked_file 0 1
             else mk_trace RecvClosed [].

(** The extremes of the analysis state against the sizes measured over
    the items [P] the cursor has passed. *)
Definition sizes_exact (files : string -> file_trace) (P : registry)
  (e : eval_state) : Prop :=
  size_of_smallest_binary_file e = min_or_neg1 (measured files BINARY P) /\
  size_of_largest_binary_file e = max_or_neg1 (measured files BINARY P) /\
  size_of_smallest_text_file e = min_or_neg1 (measured files TEXT P) /\
  (smallest_text_file e = None <-> measured files TEXT P = []) /\
  (measured files BINARY P = [] ->
   size_of_largest_text_file e = last (measured files TEXT P) (-1)%Z).

(** Each [recv] into the [BUFFER_SIZE]-byte buffer returns at most
    [BUFFER_SIZE] bytes: every chunk of every response fits the buffer. *)
Definition chunks_bounded (srv : server) : Prop :=
  forall sel, Forall (fun c => String.length c <= Z.to_nat BUFFER_SIZE) (srv sel).

Definition all_ascii : list ascii := map ascii_of_nat (seq 0 256).

(** Every string of at most [n] characters. *)
Fixpoint all_strings (n : nat) : list string :=
  match n with
  | O => [EmptyString]
  | S m => EmptyString ::
           flat_map (fun s => map (fun c => String c s) all_ascii) (all_strings m)
  end.

Definition all_kinds : list item_kind :=
  [DIRECTORY; TEXT; BINARY; ERROR; EXTERNAL; TIMEOUT; TOO_LARGE].

(** Every item whose record has at most [n] characters. *)
Definition all_entries (n : nat) : registry :=
  flat_map (fun k => map (mk_entry k) (all_strings n)) all_kinds.

(** The record length bounds of the items a crawl over chunks of at most
    [BUFFER_SIZE] bytes can list: a directory selector is read out of one
    chunk, an invalid reference holds a request line (a selector and
    CRLF). *)
Definition bounded_entry (x : entry) : Prop :=
  String.length (record x) <= Z.to_nat BUFFER_SIZE + 2 /\
  (item_type x = DIRECTORY -> String.length (record x) <= Z.to_nat BUFFER_SIZE).

(* ================================================================== *)
(** * Properties *)

(* ------------------------------------------------------------------ *)
(** ** The registry *)

Lemma kind_eqb_eq (a b : item_kind) : kind_eqb a b = true <-> a = b.
Proof.
  unfold kind_eqb; destruct (item_kind_eq_dec a b); split; congruence.
Qed.

Lemma same_item_eq (c n : entry) : same_item c n = true <-> c = n.
Proof.
  destruct c as [tc rc], n as [tn rn]; unfold same_item; simpl.
  rewrite andb_true_iff, kind_eqb_eq, String.eqb_eq.
  split; [intros [-> ->] | intros H; inversion H]; auto.
Qed.

Lemma existsb_same_In (e : entry) (l : registry) :
  existsb (fun c => same_item c e) l = true <-> In e l.
Proof.
  rewrite existsb_exists; split.
  - intros [c [Hin Hs]]; apply same_item_eq in Hs; subst; exact Hin.
  - intros Hin; exists e; split; [exact Hin | apply same_item_eq; reflexivity].
Qed.

Lemma add_item_eq (e : entry) (l : registry) :
  add_item e l = if existsb (fun c => same_item c e) l then l else (l ++ [e])%list.
Proof. destruct l; reflexivity. Qed.

Lemma add_item_present (e : entry) (l : registry) :
  In e l -> add_item e l = l.
Proof.
  intros H; rewrite add_item_eq; apply existsb_same_In in H; now rewrite H.
Qed.

Lemma add_item_absent (e : entry) (l : registry) :
  ~ In e l -> add_item e l = (l ++ [e])%list.
Proof.
  intros H; rewrite add_item_eq.
  destruct (existsb _ l) eqn:E; [apply existsb_same_In in E; contradiction | reflexivity].
Qed.

Lemma add_item_In (e x : entry) (l : registry) :
  In x (add_item e l) <-> In x l \/ x = e.
Proof.
  destruct (in_dec entry_eq_dec e l) as [H | H].
  - rewrite (add_item_present _ _ H); split; [auto | intros [? | ->]; auto].
  - rewrite (add_item_absent _ _ H), in_app_iff; simpl; intuition.
Qed.

Lemma add_item_NoDup (e : entry) (l : registry) :
  NoDup l -> NoDup (add_item e l).
Proof.
  intros Hl; destruct (in_dec entry_eq_dec e l) as [H | H].
  - now rewrite add_item_present.
  - rewrite add_item_absent by exact H.
    apply NoDup_app; auto using NoDup_cons, NoDup_nil.
    intros x Hx [<- | []]; contradiction.
Qed.

Lemma add_item_prefix (e : entry) (l : registry) :
  exists s, add_item e l = (l ++ s)%list /\ (s = [] \/ s = [e]).
Proof.
  destruct (in_dec entry_eq_dec e l) as [H | H].
  - exists []; rewrite app_nil_r; auto using add_item_present.
  - exists [e]; auto using add_item_absent.
Qed.

Lemma fold_add_app (es1 es2 : list entry) (l : registry) :
  fold_add (es1 ++ es2) l = fold_add es2 (fold_add es1 l).
Proof. unfold fold_add; apply fold_left_app. Qed.

Lemma fold_add_In (es : list entry) (l : registry) (x : entry) :
  In x (fold_add es l) <-> In x l \/ In x es.
Proof.
  revert l; induction es as [| e es IH]; intros l; simpl.
  - intuition.
  - unfold fold_add in *; simpl; rewrite IH, add_item_In; intuition.
Qed.

Lemma fold_add_NoDup (es : list entry) (l : registry) :
  NoDup l -> NoDup (fold_add es l).
Proof.
  revert l; induction es as [| e es IH]; intros l Hl; [exact Hl |].
  apply IH, add_item_NoDup, Hl.
Qed.

Lemma fold_add_prefix (es : list entry) (l : registry) :
  exists s, fold_add es l = (l ++ s)%list /\ incl s es.
Proof.
  revert l; induction es as [| e es IH]; intros l.
  - exists []; rewrite app_nil_r; split; [reflexivity | intros x []].
  - destruct (add_item_prefix e l) as [s1 [E1 H1]].
    destruct (IH (add_item e l)) as [s2 [E2 H2]].
    exists (s1 ++ s2)%list; unfold fold_add in *; simpl; rewrite E2, E1, app_assoc.
    split; [reflexivity |].
    intros x Hx; apply in_app_iff in Hx as [Hx | Hx].
    + destruct H1 as [-> | ->]; [destruct Hx | destruct Hx as [<- | []]; left; auto].
    + right; auto.
Qed.

Ltac split_matches :=
  repeat match goal with
  | |- context [match ?x with _ => _ end] => destruct x
  | |- context [if ?b then _ else _] => destruct b
  end.

Lemma index_line_independent (line request : string) :
  registry_independent (index_line line request).
Proof.
  unfold registry_independent, index_line; cbv zeta.
  split_matches;
    first [ left; reflexivity
          | right; exists []; reflexivity
          | right; eexists [_]; intros; reflexivity ].
Qed.

Lemma index_lines_independent (fuel : nat) (line request : string) :
  registry_independent (index_lines fuel line request).
Proof.
  revert line; induction fuel as [| f IH]; intros line; simpl.
  - right; exists []; reflexivity.
  - destruct (find_next_line line) as [line' next].
    destruct (index_line_independent line' request) as [Hn | [es Hes]].
    + left; intros lst; now rewrite Hn.
    + destruct next as [n |].
      * destruct (IH n) as [Hn | [es2 Hes2]].
        -- left; intros lst; now rewrite Hes, Hn.
        -- right; exists (es ++ es2)%list; intros lst.
           now rewrite Hes, Hes2, fold_add_app.
      * right; exists es; intros lst; now rewrite Hes.
Qed.

Lemma indexing_independent (request : string) (chunks : list string) :
  registry_independent (indexing request chunks).
Proof.
  induction chunks as [| c cs IH]; simpl.
  - right; exists []; reflexivity.
  - unfold index_chunk.
    destruct (index_lines_independent (S (String.length c)) c request)
      as [Hn | [es Hes]].
    + left; intros lst; now rewrite Hn.
    + destruct IH as [Hn | [es2 Hes2]].
      * left; intros lst; now rewrite Hes, Hn.
      * right; exists (es ++ es2)%list; intros lst.
        now rewrite Hes, Hes2, fold_add_app.
Qed.

(** What indexing adds to a registry is what it yields on the empty one. *)
Lemma indexing_from_empty (request : string) (chunks : list string)
  (lst lst' : registry) :
  indexing request chunks lst = Some lst' ->
  exists l0, indexing request chunks [] = Some l0 /\
    (forall x, In x lst' <-> In x lst \/ In x l0) /\
    exists s, lst' = (lst ++ s)%list /\ incl s l0.
Proof.
  intros H; destruct (indexing_independent request chunks) as [Hn | [es Hes]].
  - rewrite Hn in H; discriminate.
  - rewrite Hes in H; injection H as <-.
    exists (fold_add es []); split; [apply Hes |]; split.
    + intros x; rewrite !fold_add_In; simpl; intuition.
    + destruct (fold_add_prefix es lst) as [s [E Hs]].
      exists s; split; [exact E |].
      intros x Hx; apply fold_add_In; right; auto.
Qed.

Lemma indexing_NoDup (request : string) (chunks : list string)
  (lst lst' : registry) :
  NoDup lst -> indexing request chunks lst = Some lst' -> NoDup lst'.
Proof.
  intros Hl H; destruct (indexing_independent request chunks) as [Hn | [es Hes]].
  - rewrite Hn in H; discriminate.
  - rewrite Hes in H; injection H as <-; now apply fold_add_NoDup.
Qed.

(* ------------------------------------------------------------------ *)
(** ** The crawl *)

Lemma firstn_S_snoc {A : Type} (l : list A) (i : nat) (c : A) :
  nth_error l i = Some c -> firstn (S i) l = (firstn i l ++ [c])%list.
Proof.
  revert l; induction i as [| i IH]; intros [| a l] H; try discriminate.
  - injection H as ->; reflexivity.
  - simpl in *; rewrite (IH l H); reflexivity.
Qed.

Lemma firstn_app_le {A : Type} (n : nat) (l s : list A) :
  n <= List.length l -> firstn n (l ++ s) = firstn n l.
Proof.
  intros H; rewrite firstn_app.
  replace (n - List.length l) with 0 by lia; simpl; apply app_nil_r.
Qed.

Lemma dir_records_app (l1 l2 : registry) :
  dir_records (l1 ++ l2)%list = (dir_records l1 ++ dir_records l2)%list.
Proof. unfold dir_records; now rewrite filter_app, map_app. Qed.

Lemma dir_records_NoDup (l : registry) : NoDup l -> NoDup (dir_records l).
Proof.
  unfold dir_records; intros H.
  apply NoDup_map_NoDup_ForallPairs; [| now apply NoDup_filter].
  intros [t1 r1] [t2 r2] H1 H2 E; simpl in E; subst r2.
  apply filter_In in H1 as [_ H1], H2 as [_ H2].
  unfold is_directory in *; simpl in *.
  apply kind_eqb_eq in H1, H2; now subst.
Qed.

Section Crawl.

Variable srv : server.

(** The crawl loop keeps the registry free of duplicates and requests
    exactly the directories passed by the cursor, each once. *)
Lemma crawl_loop_inv (f i : nat) (lst : registry) (d : list string)
  (lst' : registry) (d' : list string) :
  NoDup lst -> i <= List.length lst -> d = dir_records (firstn i lst) ->
  crawl_loop srv f i lst d = Finished lst' d' ->
  NoDup lst' /\ d' = dir_records lst'.
Proof.
  revert i lst d; induction f as [| f IH]; intros i lst d Hnd Hi Hd H;
    simpl in H; [discriminate |].
  destruct (nth_error lst i) as [c |] eqn:Hc.
  - assert (Hlt : i < List.length lst)
      by (apply nth_error_Some; rewrite Hc; discriminate).
    destruct (kind_eqb (item_type c) DIRECTORY) eqn:Hk.
    + destruct (indexing _ _ lst) as [l2 |] eqn:Hix; [| discriminate].
      destruct (indexing_from_empty _ _ _ _ Hix) as [l0 [_ [_ [s [Hs _]]]]].
      apply (IH (S i) l2 (d ++ [record c])%list); auto.
      * eapply indexing_NoDup; eauto.
      * subst l2; rewrite length_app; lia.
      * subst l2 d; rewrite firstn_app_le by lia.
        rewrite (firstn_S_snoc _ _ _ Hc), dir_records_app; unfold dir_records at 3.
        simpl; unfold is_directory; now rewrite Hk.
    + apply (IH (S i) lst d); auto.
      subst d; rewrite (firstn_S_snoc _ _ _ Hc), dir_records_app.
      unfold dir_records at 3; simpl; unfold is_directory; rewrite Hk.
      now rewrite app_nil_r.
  - injection H as <- <-; split; [exact Hnd |].
    apply nth_error_None in Hc; subst d; now rewrite firstn_all2.
Qed.

Lemma crawl_inv (fuel : nat) (lst : registry) (d : list string) :
  crawl srv fuel = Finished lst d -> NoDup lst /\ d = dir_records lst.
Proof.
  unfold crawl; destruct (indexing _ _ []) as [l0 |] eqn:H; [| discriminate].
  apply crawl_loop_inv; [eapply indexing_NoDup; eauto using NoDup_nil | lia | reflexivity].
Qed.

Lemma crawl_loop_fuel (U : registry) (f i : nat) (lst : registry)
  (d : list string) :
  menus_within srv U -> NoDup lst -> incl lst U -> i <= List.length lst ->
  S (List.length U) <= f + i -> crawl_loop srv f i lst d <> OutOfFuel.
Proof.
  intros HU; revert i lst d; induction f as [| f IH];
    intros i lst d Hnd Hinc Hi Hf.
  - pose proof (NoDup_incl_length Hnd Hinc); lia.
  - simpl; destruct (nth_error lst i) as [c |] eqn:Hc; [| discriminate].
    assert (Hlt : i < List.length lst)
      by (apply nth_error_Some; rewrite Hc; discriminate).
    pose proof (NoDup_incl_length Hnd Hinc).
    destruct (kind_eqb (item_type c) DIRECTORY).
    + destruct (indexing _ _ lst) as [l2 |] eqn:Hix; [| discriminate].
      destruct (indexing_from_empty _ _ _ _ Hix) as [l0 [H0 [Hin [s [Hs _]]]]].
      specialize (HU (record c)); rewrite H0 in HU.
      apply IH.
      * eapply indexing_NoDup; eauto.
      * intros x Hx; apply Hin in Hx as [Hx | Hx]; auto.
      * subst l2; rewrite length_app; lia.
      * lia.
    + apply IH; auto; lia.
Qed.

End Crawl.

(* ------------------------------------------------------------------ *)
(** ** Record lengths under bounded chunks *)

Lemma str_length_app (a b : string) :
  String.length (a ++ b) = String.length a + String.length b.
Proof. induction a as [| c a IH]; simpl; [reflexivity | now rewrite IH]. Qed.


Lemma in_all_strings (n : nat) (s : string) :
  String.length s <= n -> In s (all_strings n).
Proof.
  revert s; induction n as [| n IH]; intros [| c s] Hs; cbn [String.length] in Hs;
    cbn [all_strings]; try (left; reflexivity); [lia |].
  right; apply in_flat_map; exists s; split; [apply IH; lia |].
  apply in_map_iff; exists c; split; [reflexivity |].
  unfold all_ascii; apply in_map_iff; exists (nat_of_ascii c).
  split; [apply ascii_nat_embedding |].
  apply in_seq; pose proof (nat_ascii_bounded c); lia.
Qed.

Lemma in_all_entries (n : nat) (x : entry) :
  String.length (record x) <= n -> In x (all_entries n).
Proof.
  destruct x as [k r]; cbn [record]; intros H.
  unfold all_entries; apply in_flat_map; exists k; split.
  - destruct k; cbn; tauto.
  - apply in_map, in_all_strings, H.
Qed.

Lemma cstr_length (s : string) : String.length (cstr s) <= String.length s.
Proof.
  induction s as [| c s IH]; cbn; [lia |].
  destruct (Ascii.eqb c NUL); cbn; lia.
Qed.

Lemma cut_field_length (s : string) : String.length (cut_field s) = String.length s.
Proof.
  induction s as [| c s IH]; cbn; [reflexivity |].
  destruct (Ascii.eqb c NUL); [reflexivity |].
  destruct (Ascii.eqb c TAB || Ascii.eqb c CR || Ascii.eqb c LF); cbn; lia.
Qed.

Lemma find_tab_length (line s : string) :
  find_tab line = Some s -> String.length s < String.length line.
Proof.
  revert s; induction line as [| c r IH]; intros s H; cbn in H; [discriminate |].
  destruct (Ascii.eqb c NUL); [discriminate |].
  destruct (Ascii.eqb c TAB); [injection H as <-; cbn; lia |].
  specialize (IH s H); cbn; lia.
Qed.

Lemma find_next_line_length (p : string) :
  String.length (fst (find_next_line p)) = String.length p /\
  (forall a, snd (find_next_line p) = Some a -> String.length a < String.length p).
Proof.
  induction p as [| c rest IH]; cbn [find_next_line].
  - split; [reflexivity | intros a H; discriminate].
  - destruct (Ascii.eqb c NUL); [split; [reflexivity | intros a H; discriminate] |].
    destruct (Ascii.eqb c CR && Ascii.eqb (first_char rest) LF).
    + split; [reflexivity |]; intros a H; cbn [snd] in H.
      destruct (Ascii.eqb _ NUL); [discriminate | injection H as <-].
      destruct rest as [| x r]; cbn; lia.
    + destruct (find_next_line rest) as [p' n]; cbn [fst snd] in *.
      destruct IH as [IH1 IH2]; split; [cbn; lia |].
      intros a H; specialize (IH2 a H); cbn; lia.
Qed.

(** An item [index_line] adds is an invalid reference holding the request,
    or has a record no longer than the line. *)
Definition line_item (line request : string) (x : entry) : Prop :=
  (item_type x = ERROR /\ String.length (record x) <= String.length request) \/
  String.length (record x) <= String.length line.

Lemma index_line_new (line request : string) (lst lst' : registry) :
  index_line line request lst = Some lst' ->
  forall x, In x lst' -> In x lst \/ line_item line request x.
Proof.
  unfold index_line, add_new, line_item; intros H x Hx.
  destruct (Ascii.eqb (first_char line) "3"%char).
  { injection H as <-; apply add_item_In in Hx as [Hx | ->]; [auto |].
    right; left; split; [reflexivity | apply cstr_length]. }
  destruct (if Ascii.eqb (first_char line) "1"%char then Some DIRECTORY
            else if Ascii.eqb (first_char line) "0"%char then Some TEXT
            else if is_binary_file (first_char line) then Some BINARY
            else None) as [k |];
    [| injection H as <-; auto].
  unfold extract_pathname in H.
  destruct (find_tab line) as [start |] eqn:Ht; [| discriminate].
  pose proof (find_tab_length _ _ Ht) as Hl.
  pose proof (cut_field_length start) as Hc.
  destruct (Ascii.eqb (first_char (cut_field start)) "/"%char).
  { injection H as <-; apply add_item_In in Hx as [Hx | ->]; [auto |].
    right; right; cbn [record]; pose proof (cstr_length (cut_field start)); lia. }
  destruct (kind_eqb k DIRECTORY && Ascii.eqb (first_char (cut_field start)) NUL);
    [| injection H as <-; auto].
  destruct (cut_field start) as [| y after] eqn:Ec; [discriminate |].
  injection H as <-; apply add_item_In in Hx as [Hx | ->]; [auto |].
  right; right; cbn [record]; pose proof (cstr_length after); cbn in Hc; lia.
Qed.

Lemma index_lines_new (fuel : nat) (request : string) (m : nat) :
  forall line lst lst', String.length line <= m ->
  index_lines fuel line request lst = Some lst' ->
  forall x, In x lst' ->
    In x lst \/ (item_type x = ERROR /\ String.length (record x) <= String.length request) \/
    String.length (record x) <= m.
Proof.
  induction fuel as [| f IH]; intros line lst lst' Hm H x Hx; cbn in H.
  - injection H as <-; auto.
  - pose proof (find_next_line_length line) as [L1 L2].
    destruct (find_next_line line) as [line' next]; cbn [fst snd] in L1, L2.
    destruct (index_line line' request lst) as [l1 |] eqn:E; [| discriminate].
    assert (Hl1 : forall y, In y l1 -> In y lst \/
              (item_type y = ERROR /\ String.length (record y) <= String.length request) \/
              String.length (record y) <= m).
    { intros y Hy; destruct (index_line_new _ _ _ _ E y Hy) as [? | [? | ?]]; auto.
      right; right; lia. }
    destruct next as [n |].
    + specialize (L2 n eq_refl).
      destruct (IH n l1 lst' ltac:(lia) H x Hx) as [Hy | ?]; auto.
    + injection H as <-; auto.
Qed.

Lemma indexing_new (request : string) (m : nat) (chunks : list string) :
  Forall (fun c => String.length c <= m) chunks ->
  forall lst lst', indexing request chunks lst = Some lst' ->
  forall x, In x lst' ->
    In x lst \/ (item_type x = ERROR /\ String.length (record x) <= String.length request) \/
    String.length (record x) <= m.
Proof.
  induction 1 as [| c cs Hc Hcs IH]; intros lst lst' H x Hx; cbn [indexing] in H.
  - injection H as <-; auto.
  - unfold index_chunk in H.
    destruct (index_lines _ c request lst) as [l1 |] eqn:E; [| discriminate].
    destruct (IH l1 lst' H x Hx) as [Hy | ?]; auto.
    exact (index_lines_new _ request m c lst l1 Hc E x Hy).
Qed.

Lemma indexing_bounded (srv : server) (Hb : chunks_bounded srv) (sel : string)
  (lst lst' : registry) :
  String.length sel <= Z.to_nat BUFFER_SIZE ->
  (forall x, In x lst -> bounded_entry x) ->
  indexing (request_line sel) (srv sel) lst = Some lst' ->
  forall x, In x lst' -> bounded_entry x.
Proof.
  intros Hs Hl H x Hx.
  destruct (indexing_new _ _ _ (Hb sel) lst lst' H x Hx) as [Hy | [[Ht Hr] | Hr]];
    [now apply Hl | |].
  - unfold request_line in Hr; rewrite str_length_app in Hr; cbn in Hr.
    split; [lia | rewrite Ht; discriminate].
  - split; [lia | intros _; exact Hr].
Qed.

Lemma crawl_loop_fuel_bounded (srv : server) (Hb : chunks_bounded srv) (f i : nat)
  (lst : registry) (d : list string) :
  NoDup lst -> (forall x, In x lst -> bounded_entry x) -> i <= List.length lst ->
  S (List.length (all_entries (Z.to_nat BUFFER_SIZE + 2))) <= f + i ->
  crawl_loop srv f i lst d <> OutOfFuel.
Proof.
  revert i lst d; induction f as [| f IH]; intros i lst d Hnd Hbd Hi Hf.
  - assert (Hinc : incl lst (all_entries (Z.to_nat BUFFER_SIZE + 2)))
      by (intros x Hx; apply in_all_entries, (Hbd x Hx)).
    pose proof (NoDup_incl_length Hnd Hinc); lia.
  - simpl; destruct (nth_error lst i) as [c |] eqn:Hc; [| discriminate].
    assert (Hlt : i < List.length lst)
      by (apply nth_error_Some; rewrite Hc; discriminate).
    destruct (kind_eqb (item_type c) DIRECTORY) eqn:Hk.
    + destruct (indexing _ _ lst) as [l2 |] eqn:Hix; [| discriminate].
      destruct (indexing_from_empty _ _ _ _ Hix) as [_ [_ [_ [s [Hs _]]]]].
      apply IH.
      * eapply indexing_NoDup; eauto.
      * apply (indexing_bounded srv Hb (record c) lst l2); auto.
        apply (Hbd c (nth_error_In _ _ Hc)); apply kind_eqb_eq; exact Hk.
      * subst l2; rewrite length_app; lia.
      * lia.
    + apply IH; auto; lia.
Qed.

(* ------------------------------------------------------------------ *)
(** ** Parsing well-formed menu lines *)

Ltac clean_facts c :=
  let H := fresh in
  assert (H : Ascii.eqb c NUL = false /\ Ascii.eqb c TAB = false /\
              Ascii.eqb c CR = false /\ Ascii.eqb c LF = false)
    by (match goal with
        | Hc : clean_char c = true |- _ => unfold clean_char in Hc
        end;
        destruct (Ascii.eqb c NUL), (Ascii.eqb c TAB), (Ascii.eqb c CR),
          (Ascii.eqb c LF); simpl in *; try discriminate; auto);
  destruct H as [? [? [? ?]]].

Lemma str_app_assoc (a b c : string) : (a ++ b) ++ c = a ++ (b ++ c).
Proof. induction a as [| x a IH]; simpl; [reflexivity | now rewrite IH]. Qed.

Lemma find_next_line_clean (s rest : string) :
  clean s = true ->
  find_next_line (s ++ String CR (String LF rest)) =
    (s ++ String NUL (String LF rest),
     if Ascii.eqb (first_char rest) NUL then None else Some rest).
Proof.
  induction s as [| c s IH]; intros Hs; [reflexivity |].
  simpl in Hs; apply andb_true_iff in Hs as [Hc Hs]; clean_facts c.
  simpl; rewrite H, H1; simpl; now rewrite (IH Hs).
Qed.

Lemma find_tab_clean (s r : string) :
  clean s = true -> find_tab (s ++ String TAB r) = Some r.
Proof.
  induction s as [| c s IH]; intros Hs; [reflexivity |].
  simpl in Hs; apply andb_true_iff in Hs as [Hc Hs]; clean_facts c.
  simpl; rewrite H, H0; auto.
Qed.

Lemma cut_field_clean (s r : string) :
  clean s = true -> cut_field (s ++ String TAB r) = s ++ String NUL r.
Proof.
  induction s as [| c s IH]; intros Hs; [reflexivity |].
  simpl in Hs; apply andb_true_iff in Hs as [Hc Hs]; clean_facts c.
  simpl; rewrite H, H0, H1, H2; simpl; now rewrite (IH Hs).
Qed.

Lemma cstr_clean_nul (s r : string) :
  clean s = true -> cstr (s ++ String NUL r) = s.
Proof.
  induction s as [| c s IH]; intros Hs; [reflexivity |].
  simpl in Hs; apply andb_true_iff in Hs as [Hc Hs]; clean_facts c.
  simpl; rewrite H; now rewrite (IH Hs).
Qed.

Lemma cstr_clean (s : string) : clean s = true -> cstr s = s.
Proof.
  induction s as [| c s IH]; intros Hs; [reflexivity |].
  simpl in Hs; apply andb_true_iff in Hs as [Hc Hs]; clean_facts c.
  simpl; rewrite H; now rewrite (IH Hs).
Qed.

Lemma clean_app (a b : string) : clean (a ++ b) = clean a && clean b.
Proof.
  induction a as [| c a IH]; simpl; [reflexivity | now rewrite IH, andb_assoc].
Qed.

Lemma clean_no_nul (s : string) : clean s = true -> no_nul s = true.
Proof.
  induction s as [| c s IH]; intros Hs; [reflexivity |].
  simpl in Hs; apply andb_true_iff in Hs as [Hc Hs]; clean_facts c.
  simpl; rewrite H; simpl; auto.
Qed.

Lemma no_nul_app (a b : string) : no_nul (a ++ b) = no_nul a && no_nul b.
Proof.
  induction a as [| c a IH]; simpl; [reflexivity | now rewrite IH, andb_assoc].
Qed.

Lemma cstr_no_nul_nul (s r : string) :
  no_nul s = true -> cstr (s ++ String NUL r) = s.
Proof.
  induction s as [| c s IH]; intros Hs; [reflexivity |].
  simpl in Hs; apply andb_true_iff in Hs as [Hc Hs].
  simpl; apply negb_true_iff in Hc; rewrite Hc; now rewrite (IH Hs).
Qed.

Lemma cstr_no_nul (s : string) : no_nul s = true -> cstr s = s.
Proof.
  induction s as [| c s IH]; intros Hs; [reflexivity |].
  simpl in Hs; apply andb_true_iff in Hs as [Hc Hs].
  simpl; apply negb_true_iff in Hc; rewrite Hc; now rewrite (IH Hs).
Qed.

Lemma index_line_unfold (line request : string) (lst : registry) :
  index_line line request lst =
  if Ascii.eqb (first_char line) "3"%char then Some (add_new ERROR request lst)
  else match kind_of_type (first_char line) with
       | None => Some lst
       | Some k =>
           match extract_pathname line with
           | None => None
           | Some pathname =>
               if Ascii.eqb (first_char pathname) "/"%char then
                 Some (add_new k pathname lst)
               else if kind_eqb k DIRECTORY
                       && Ascii.eqb (first_char pathname) NUL then
                 match pathname with
                 | EmptyString => None
                 | String _ after => Some (add_new EXTERNAL after lst)
                 end
               else Some lst
           end
       end.
Proof. reflexivity. Qed.

Lemma menu_line_buffer (t : tuple) (rest : string) :
  menu_line t ++ rest =
  String (ttype t) (display t ++ String TAB (selector t ++ String TAB
    ((host t ++ tab ++ port t) ++ rest))).
Proof.
  unfold menu_line, tab; simpl; f_equal.
  repeat (rewrite !str_app_assoc; simpl); reflexivity.
Qed.

(** One well-formed line, as [find_next_line] leaves it in the buffer. *)
Lemma index_line_tuple (t : tuple) (rest request : string) (lst : registry) :
  clean_tuple t = true ->
  index_line (menu_line t ++ String NUL (String LF rest)) request lst =
  Some (fold_add (opt_list (tuple_item request t)) lst).
Proof.
  intros Ht; unfold clean_tuple in Ht; rewrite !andb_true_iff in Ht.
  destruct Ht as [[[[Hty Hd] Hs] Hh] Hp].
  rewrite index_line_unfold, menu_line_buffer; simpl first_char.
  unfold tuple_item.
  destruct (Ascii.eqb (ttype t) "3"%char) eqn:E3; [reflexivity |].
  destruct (kind_of_type (ttype t)) as [k |] eqn:Ek; [| reflexivity].
  unfold extract_pathname; simpl find_tab; clean_facts (ttype t).
  rewrite H, H0, (find_tab_clean _ _ Hd), (cut_field_clean _ _ Hs).
  assert (HR : no_nul (host t ++ tab ++ port t) = true)
    by (rewrite !no_nul_app, (clean_no_nul _ Hh), (clean_no_nul _ Hp); reflexivity).
  destruct (selector t) as [| c0 sel] eqn:Es; simpl.
  - destruct (kind_eqb k DIRECTORY); simpl; [| reflexivity].
    unfold add_new; now rewrite (cstr_no_nul_nul _ _ HR).
  - simpl in Hs; apply andb_true_iff in Hs as [Hc0 Hs'].
    destruct (Ascii.eqb c0 "/"%char).
    + clean_facts c0; unfold add_new; simpl.
      rewrite H3, (cstr_clean_nul _ _ Hs'); reflexivity.
    + clean_facts c0; rewrite H3, andb_false_r; reflexivity.
Qed.

Lemma line_safe_app (a b : string) : line_safe (a ++ b) = line_safe a && line_safe b.
Proof.
  induction a as [| c a IH]; simpl; [reflexivity | now rewrite IH, !andb_assoc].
Qed.

Lemma clean_line_safe (s : string) : clean s = true -> line_safe s = true.
Proof.
  induction s as [| c s IH]; intros Hs; [reflexivity |].
  simpl in Hs; apply andb_true_iff in Hs as [Hc Hs]; clean_facts c.
  simpl; rewrite H, H1; simpl; auto.
Qed.

Lemma menu_line_safe (t : tuple) : clean_tuple t = true -> line_safe (menu_line t) = true.
Proof.
  intros Ht; unfold clean_tuple in Ht; rewrite !andb_true_iff in Ht.
  destruct Ht as [[[[Hty Hd] Hs] Hh] Hp]; clean_facts (ttype t).
  unfold menu_line; simpl; rewrite H, H1; simpl.
  repeat (rewrite line_safe_app; simpl).
  rewrite !clean_line_safe by assumption; reflexivity.
Qed.

Lemma find_next_line_safe (s rest : string) :
  line_safe s = true ->
  find_next_line (s ++ String CR (String LF rest)) =
    (s ++ String NUL (String LF rest),
     if Ascii.eqb (first_char rest) NUL then None else Some rest).
Proof.
  induction s as [| c s IH]; intros Hs; [reflexivity |].
  simpl in Hs; rewrite !andb_true_iff, !negb_true_iff in Hs.
  destruct Hs as [[Hn Hc] Hs].
  simpl; rewrite Hn, Hc; simpl; now rewrite (IH Hs).
Qed.

Lemma index_lines_S (f : nat) (line request : string) (lst : registry) :
  index_lines (S f) line request lst =
  let (line', next_line) := find_next_line line in
  match index_line line' request lst with
  | None => None
  | Some lst' =>
      match next_line with
      | None => Some lst'
      | Some n => index_lines f n request lst'
      end
  end.
Proof. reflexivity. Qed.

Lemma index_lines_menu (ts : list tuple) (fuel : nat) (request : string)
  (lst : registry) :
  forallb clean_tuple ts = true -> ts <> [] -> List.length ts <= fuel ->
  index_lines fuel (menu ts) request lst =
  Some (fold_add (menu_items request ts) lst).
Proof.
  revert fuel lst; induction ts as [| t r IH]; intros fuel lst Hc Hne Hf;
    [contradiction |].
  simpl in Hc; apply andb_true_iff in Hc as [Ht Hr].
  destruct fuel as [| f]; [simpl in Hf; lia |].
  replace (menu (t :: r)) with (menu_line t ++ String CR (String LF (menu r)))
    by reflexivity.
  rewrite index_lines_S.
  rewrite (find_next_line_safe _ _ (menu_line_safe _ Ht)).
  rewrite (index_line_tuple _ _ _ _ Ht).
  unfold menu_items; simpl flat_map; rewrite fold_add_app.
  destruct r as [| t' r'].
  - reflexivity.
  - pose proof Hr as Hr'; simpl in Hr'; apply andb_true_iff in Hr' as [Ht' _].
    unfold clean_tuple in Ht'; rewrite !andb_true_iff in Ht'.
    destruct Ht' as [[[[Hty' _] _] _] _]; clean_facts (ttype t').
    change (first_char (menu (t' :: r'))) with (ttype t').
    rewrite H; apply IH; [exact Hr | discriminate | simpl in *; lia].
Qed.

Lemma menu_length (ts : list tuple) : List.length ts <= String.length (menu ts).
Proof.
  induction ts as [| t r IH]; simpl; [lia |].
  rewrite !str_length_app; simpl; lia.
Qed.

Lemma indexing_menu (request : string) (ts : list tuple) (lst : registry) :
  forallb clean_tuple ts = true ->
  indexing request [menu ts] lst = Some (fold_add (menu_items request ts) lst).
Proof.
  intros Hc; simpl; unfold index_chunk.
  destruct ts as [| t r].
  - reflexivity.
  - rewrite index_lines_menu; auto; [discriminate |].
    pose proof (menu_length (t :: r)); lia.
Qed.

(* ------------------------------------------------------------------ *)
(** ** The example servers *)

Lemma menus_within_cycle : menus_within srv_cycle U_cycle.
Proof.
  intros sel; unfold srv_cycle.
  destruct (String.eqb sel "" || String.eqb sel "/").
  - rewrite indexing_menu by reflexivity; vm_compute; intros x Hx; exact Hx.
  - intros x [].
Qed.

(* ------------------------------------------------------------------ *)
(** ** The size meter *)

Lemma steps_bytes_nonneg (st : list (select_res * recv_res)) : (0 <= steps_bytes st)%Z.
Proof.
  induction st as [| [s r] st IH]; cbn [steps_bytes]; [lia |].
  destruct r; cbn [steps_bytes]; lia.
Qed.

Lemma size_loop_range (request : string) (st : list (select_res * recv_res))
  (bytes size : Z) (lst : registry) :
  (0 <= size)%Z -> (0 < bytes)%Z ->
  meter_result (fst (size_loop request bytes size st lst)).
Proof.
  unfold meter_result.
  revert bytes size; induction st as [| [s r] st IH]; intros bytes size Hs Hb;
    cbn [size_loop].
  - destruct (Z.leb_spec FILE_LIMIT (size + bytes)); cbn [fst];
      unfold FILE_LIMIT in *; lia.
  - destruct s; cbn [fst]; try (unfold FILE_LIMIT; lia);
      destruct (Z.leb_spec FILE_LIMIT (size + bytes)); cbn [fst];
      unfold FILE_LIMIT in *; try lia;
      destruct r; cbn [fst]; first [apply IH; lia | lia].
Qed.

Lemma evaluate_file_size_range (request : string) (tr : file_trace) (lst : registry) :
  meter_result (fst (evaluate_file_size request tr lst)).
Proof.
  unfold evaluate_file_size, meter_result, FILE_LIMIT.
  destruct (first_recv tr) as [n | | t]; simpl.
  - apply size_loop_range; lia.
  - lia.
  - lia.
Qed.

Lemma size_loop_total (request : string) (st : list (select_res * recv_res))
  (bytes size : Z) (lst : registry) :
  steps_stall_free st = true -> (0 <= size)%Z -> (0 < bytes)%Z ->
  fst (size_loop request bytes size st lst) =
  (let T := (size + bytes + steps_bytes st)%Z in
   if (FILE_LIMIT <=? T)%Z then (-1)%Z else T).
Proof.
  revert bytes size; induction st as [| [s r] st IH]; intros bytes size Hsf Hs Hb;
    cbv zeta.
  - cbn [size_loop steps_bytes]; rewrite Z.add_0_r.
    destruct (FILE_LIMIT <=? size + bytes)%Z; reflexivity.
  - pose proof (steps_bytes_nonneg st).
    assert (Hns : s <> SelTimeout) by (intros ->; discriminate).
    assert (Hsf' : match r with RecvBytes _ => steps_stall_free st = true
                              | _ => True end)
      by (destruct s, r; simpl in Hsf; auto; congruence).
    cbn [size_loop].
    transitivity (fst (if (FILE_LIMIT <=? size + bytes)%Z then ((-1)%Z, lst)
                       else match r with
                            | RecvBytes m =>
                                size_loop request (Zpos m) (size + bytes) st lst
                            | _ => ((size + bytes)%Z, lst)
                            end)).
    { destruct s; [reflexivity | contradiction | reflexivity]. }
    destruct r as [m | | t]; cbn [steps_bytes].
    + destruct (Z.leb_spec FILE_LIMIT (size + bytes)).
      * cbn [fst].
        destruct (Z.leb_spec FILE_LIMIT (size + bytes + (Z.pos m + steps_bytes st)));
          [reflexivity | lia].
      * rewrite IH by (auto; lia); cbv zeta; now rewrite Z.add_assoc.
    + rewrite Z.add_0_r; destruct (FILE_LIMIT <=? size + bytes)%Z; reflexivity.
    + rewrite Z.add_0_r; destruct (FILE_LIMIT <=? size + bytes)%Z; reflexivity.
Qed.

Lemma evaluate_file_size_total (request : string) (tr : file_trace) (lst : registry) :
  stall_free tr = true ->
  fst (evaluate_file_size request tr lst) =
  (if (FILE_LIMIT <=? transfer_bytes tr)%Z then (-1)%Z else transfer_bytes tr).
Proof.
  unfold stall_free, transfer_bytes, evaluate_file_size.
  destruct (first_recv tr) as [n | | t]; intros H; [| reflexivity | discriminate].
  rewrite size_loop_total by (auto; lia); cbv zeta; now rewrite Z.add_0_l.
Qed.

(* ------------------------------------------------------------------ *)
(** ** The analysis loop *)

Lemma appends_issues_refl (l : registry) : appends_issues l l.
Proof. exists []; auto. Qed.

Lemma appends_issues_trans (l1 l2 l3 : registry) :
  appends_issues l1 l2 -> appends_issues l2 l3 -> appends_issues l1 l3.
Proof.
  intros [s1 [-> H1]] [s2 [-> H2]]; exists (s1 ++ s2)%list.
  rewrite fold_add_app, forallb_app, H1, H2; auto.
Qed.

Lemma appends_issues_add (t : item_kind) (p : string) (l : registry) :
  (t = TIMEOUT \/ t = TOO_LARGE) -> appends_issues l (add_new t p l).
Proof.
  intros Ht; exists [mk_entry t (cstr p)]; split; [reflexivity |].
  simpl; destruct Ht as [-> | ->]; reflexivity.
Qed.

Lemma appends_issues_prefix (l l' : registry) :
  appends_issues l l' -> exists s, l' = (l ++ s)%list /\ forallb is_issue s = true.
Proof.
  intros [es [-> Hes]]; destruct (fold_add_prefix es l) as [s [E Hs]].
  exists s; split; [exact E |].
  apply forallb_forall; intros x Hx; rewrite forallb_forall in Hes; auto.
Qed.

Lemma appends_issues_NoDup (l l' : registry) :
  appends_issues l l' -> NoDup l -> NoDup l'.
Proof. intros [es [-> _]]; apply fold_add_NoDup. Qed.

Lemma size_loop_appends (request : string) (st : list (select_res * recv_res))
  (bytes size : Z) (lst : registry) :
  appends_issues lst (snd (size_loop request bytes size st lst)).
Proof.
  revert bytes size; induction st as [| [s r] st IH]; intros bytes size;
    cbn [size_loop].
  - destruct (FILE_LIMIT <=? size + bytes)%Z; apply appends_issues_refl.
  - destruct s; [| apply appends_issues_add; auto |];
      destruct (FILE_LIMIT <=? size + bytes)%Z; try apply appends_issues_refl;
      destruct r; try apply appends_issues_refl; apply IH.
Qed.

Lemma evaluate_file_size_appends (request : string) (tr : file_trace) (lst : registry) :
  appends_issues lst (snd (evaluate_file_size request tr lst)).
Proof.
  unfold evaluate_file_size; destruct (first_recv tr) as [n | | [|]]; cbn [snd].
  - apply size_loop_appends.
  - apply appends_issues_refl.
  - apply appends_issues_add; auto.
  - apply appends_issues_refl.
Qed.

Ltac meter_cases files c e :=
  pose proof (evaluate_file_size_appends (request_line (record c))
                (files (record c)) (ev_list e)) as Happ;
  pose proof (evaluate_file_size_range (request_line (record c))
                (files (record c)) (ev_list e)) as Hrange;
  destruct (evaluate_file_size (request_line (record c)) (files (record c))
              (ev_list e)) as [fs l];
  cbn [fst snd] in Happ, Hrange;
  destruct (Z.eqb_spec fs (-1)); [| destruct (Z.eqb_spec fs (-2))].

Lemma eval_entry_appends (files : string -> file_trace) (c : entry) (e : eval_state) :
  appends_issues (ev_list e) (ev_list (eval_entry files c e)).
Proof.
  unfold eval_entry; destruct (item_type c); try apply appends_issues_refl.
  - unfold eval_text; meter_cases files c e; cbn [ev_list set_list]; auto.
    + eapply appends_issues_trans; [exact Happ | apply appends_issues_add; auto].
    + destruct (_ || _); exact Happ.
  - unfold eval_binary; meter_cases files c e; cbn [ev_list set_list]; auto.
    eapply appends_issues_trans; [exact Happ | apply appends_issues_add; auto].
Qed.

Lemma count_kind_app (k : item_kind) (l1 l2 : registry) :
  count_kind k (l1 ++ l2)%list = (count_kind k l1 + count_kind k l2)%Z.
Proof. unfold count_kind; rewrite filter_app, length_app; lia. Qed.

Lemma count_kind_issues (k : item_kind) (s : registry) :
  k <> TIMEOUT -> k <> TOO_LARGE -> forallb is_issue s = true -> count_kind k s = 0%Z.
Proof.
  intros H1 H2; induction s as [| x s IH]; intros Hs; [reflexivity |].
  simpl in Hs; apply andb_true_iff in Hs as [Hx Hs].
  unfold count_kind in *; simpl.
  destruct (kind_eqb (item_type x) k) eqn:E; [| now apply IH].
  apply kind_eqb_eq in E; unfold is_issue in Hx; rewrite E in Hx.
  destruct k; discriminate || contradiction.
Qed.

Lemma count_kind_snoc (k : item_kind) (l : registry) (c : entry) :
  count_kind k (l ++ [c])%list = (count_kind k l + one_if (kind_eqb (item_type c) k))%Z.
Proof.
  rewrite count_kind_app; unfold count_kind at 2, one_if; simpl.
  destruct (kind_eqb (item_type c) k); simpl; lia.
Qed.

Lemma eval_entry_counts (files : string -> file_trace) (c : entry) (e : eval_state) :
  let e' := eval_entry files c e in
  num_of_directories e' =
    (num_of_directories e + one_if (kind_eqb (item_type c) DIRECTORY))%Z /\
  num_of_text_files e' =
    (num_of_text_files e + one_if (kind_eqb (item_type c) TEXT))%Z /\
  num_of_binary_files e' =
    (num_of_binary_files e + one_if (kind_eqb (item_type c) BINARY))%Z /\
  num_of_invalid_references e' =
    (num_of_invalid_references e + one_if (kind_eqb (item_type c) ERROR))%Z.
Proof.
  cbv zeta; unfold eval_entry; destruct (item_type c); cbn [kind_eqb one_if].
  all: try (unfold eval_text); try (unfold eval_binary).
  all: try (meter_cases files c e; cbn;
            try (destruct (_ || _)); cbn).
  all: unfold one_if, kind_eqb; simpl; lia.
Qed.

(** Induction along the analysis loop: an invariant of the cursor and the
    state that each step keeps holds at the end, where the cursor has
    passed the whole list. *)
Lemma evaluate_loop_inv (files : string -> file_trace)
  (Inv : nat -> eval_state -> Prop) :
  (forall i e c, Inv i e -> nth_error (ev_list e) i = Some c ->
                 Inv (S i) (eval_entry files c e)) ->
  forall f i e e', Inv i e -> evaluate_loop files f i e = Some e' ->
  exists i', Inv i' e' /\ List.length (ev_list e') <= i'.
Proof.
  intros Hstep f; induction f as [| f IH]; intros i e e' Hi H; simpl in H;
    [discriminate |].
  destruct (nth_error (ev_list e) i) as [c |] eqn:Hc.
  - eapply IH; [| exact H]; eapply Hstep; eauto.
  - injection H as <-; exists i; split; [exact Hi |]; now apply nth_error_None.
Qed.

(** The counters of the loop count the items the cursor has passed. *)
Lemma evaluate_loop_counts (files : string -> file_trace) (f : nat)
  (lst : registry) (e' : eval_state) :
  evaluate_loop files f 0 (eval_init lst) = Some e' ->
  num_of_directories e' = count_kind DIRECTORY (ev_list e') /\
  num_of_text_files e' = count_kind TEXT (ev_list e') /\
  num_of_binary_files e' = count_kind BINARY (ev_list e') /\
  num_of_invalid_references e' = count_kind ERROR (ev_list e') /\
  appends_issues lst (ev_list e').
Proof.
  intros H.
  set (Inv := fun i e =>
    i <= List.length (ev_list e) /\
    num_of_directories e = count_kind DIRECTORY (firstn i (ev_list e)) /\
    num_of_text_files e = count_kind TEXT (firstn i (ev_list e)) /\
    num_of_binary_files e = count_kind BINARY (firstn i (ev_list e)) /\
    num_of_invalid_references e = count_kind ERROR (firstn i (ev_list e)) /\
    appends_issues lst (ev_list e)).
  destruct (evaluate_loop_inv files Inv) with (f := f) (i := 0) (e := eval_init lst)
    (e' := e') as [i' [[Hle [H1 [H2 [H3 [H4 H5]]]]] Hlen]]; auto.
  - intros i e c [Hle [H1 [H2 [H3 [H4 H5]]]]] Hc.
    assert (Hlt : i < List.length (ev_list e))
      by (apply nth_error_Some; rewrite Hc; discriminate).
    pose proof (eval_entry_appends files c e) as Happ.
    destruct (appends_issues_prefix _ _ Happ) as [s [Es _]].
    destruct (eval_entry_counts files c e) as [C1 [C2 [C3 C4]]].
    assert (Hfirst : firstn (S i) (ev_list (eval_entry files c e)) =
                     (firstn i (ev_list e) ++ [c])%list)
      by (rewrite Es, firstn_app_le by lia; now apply firstn_S_snoc).
    unfold Inv; rewrite Hfirst, C1, C2, C3, C4, !count_kind_snoc, H1, H2, H3, H4.
    repeat split; try reflexivity.
    + rewrite Es, length_app; lia.
    + eapply appends_issues_trans; eauto.
  - unfold Inv; cbn; repeat split; [lia | apply appends_issues_refl].
  - rewrite firstn_all2 in H1, H2, H3, H4 by lia; auto.
Qed.

Lemma min_max_update (s l lb f : Z) :
  min_max_ok s l -> (0 <= f)%Z ->
  min_max_ok (if ((s =? -1) || (f <? s))%Z then f else s)
             (if ((l =? -1) || (lb <? f))%Z then f else l).
Proof.
  unfold min_max_ok; intros H Hf.
  destruct (Z.eqb_spec s (-1)), (Z.ltb_spec f s), (Z.eqb_spec l (-1)),
    (Z.ltb_spec lb f); simpl; lia.
Qed.

Lemma eval_entry_sizes_ok (files : string -> file_trace) (c : entry) (e : eval_state) :
  sizes_ok e -> sizes_ok (eval_entry files c e).
Proof.
  intros [Ht Hb]; unfold eval_entry; destruct (item_type c);
    try (split; assumption).
  - unfold eval_text; meter_cases files c e; try (split; assumption).
    assert (Hfs : (0 <= fs)%Z) by (unfold meter_result in Hrange; lia).
    pose proof (min_max_update _ _ (size_of_largest_binary_file e) fs Ht Hfs) as Hu.
    destruct (_ || _) eqn:E1; split; cbn; auto.
  - unfold eval_binary; meter_cases files c e; try (split; assumption).
    assert (Hfs : (0 <= fs)%Z) by (unfold meter_result in Hrange; lia).
    split; [exact Ht |].
    exact (min_max_update _ _ (size_of_largest_binary_file e) fs Hb Hfs).
Qed.

Lemma evaluate_loop_sizes (files : string -> file_trace) (f : nat)
  (lst : registry) (e' : eval_state) :
  evaluate_loop files f 0 (eval_init lst) = Some e' -> sizes_ok e'.
Proof.
  intros H.
  destruct (evaluate_loop_inv files (fun _ e => sizes_ok e)) with
    (f := f) (i := 0) (e := eval_init lst) (e' := e') as [i' [Hi _]]; auto.
  - intros i e c He _; now apply eval_entry_sizes_ok.
  - split; left; split; reflexivity.
Qed.

(* ------------------------------------------------------------------ *)
(** ** The final registry and the analysis *)

Lemma NoDup_distinct_items (l : registry) : NoDup l -> distinct_items l.
Proof.
  intros H i j [ta ra] [tb rb] Hij Ha Hb [E1 E2]; simpl in E1, E2; subst.
  apply Hij; eapply NoDup_nth_error; eauto.
  apply nth_error_Some; rewrite Ha; discriminate.
  now rewrite Ha, Hb.
Qed.

Lemma add_item_iter (e : entry) (l : registry) (n : nat) :
  Nat.iter (S n) (add_item e) l = add_item e l.
Proof.
  induction n as [| n IH]; [reflexivity |].
  change (Nat.iter (S (S n)) (add_item e) l)
    with (add_item e (Nat.iter (S n) (add_item e) l)).
  rewrite IH; apply add_item_present, add_item_In; auto.
Qed.

Lemma evaluate_state (files : string -> file_trace) (f : nat) (lst : registry)
  (an : analysis) :
  evaluate files f lst = Some an ->
  evaluate_loop files f 0 (eval_init lst) = Some (an_state an).
Proof.
  unfold evaluate; destruct (evaluate_loop files f 0 (eval_init lst)); [| discriminate].
  cbn; intros H; now injection H as <-.
Qed.

(* ================================================================== *)
(** * The claims *)

(** C1: in every run the final registry (after the crawl and the
    analysis) holds no two items with the same type and record, and
    inserting an item N >= 1 times has the effect of inserting it once. *)
Theorem registry_items_distinct (srv : server) (files : string -> file_trace)
  (f1 f2 : nat) (lst : registry) (d : list string) (an : analysis)
  (Hc : crawl srv f1 = Finished lst d) (He : evaluate files f2 lst = Some an) :
  distinct_items (ev_list (an_state an)) /\
  (forall (e : entry) (l : registry) (n : nat),
      Nat.iter (S n) (add_item e) l = add_item e l).
Proof.
  split; [| intros; apply add_item_iter].
  apply NoDup_distinct_items.
  destruct (crawl_inv srv f1 lst d Hc) as [Hnd _].
  destruct (evaluate_loop_counts files f2 lst (an_state an)
              (evaluate_state _ _ _ _ He)) as [_ [_ [_ [_ Happ]]]].
  exact (appends_issues_NoDup _ _ Happ Hnd).
Qed.

Lemma registry_items_distinct_witness :
  exists lst d an,
    crawl srv_cycle 3 = Finished lst d /\ evaluate files_closed 3 lst = Some an /\
    distinct_items (ev_list (an_state an)).
Proof.
  do 3 eexists; split; [reflexivity |]; split; [reflexivity |].
  apply (proj1 (registry_items_distinct srv_cycle files_closed 3 3 _ _ _
                  eq_refl eq_refl)).
Defined.

(** C2: for every server whose responses are finite lists of chunks that
    each fit the [BUFFER_SIZE]-byte buffer (what [recv] returns), the crawl
    stops (finished or crashed), cycles and self-references included: the
    records the registry can hold are bounded in length, hence finitely
    many, so a crawl given at least one loop iteration per such item more
    than their number does not run out; and in every finished crawl the
    directories requested are exactly the Directory items of the registry,
    in registry order, each requested once. *)
Theorem crawl_bounded_chunks_terminates (srv : server) (Hb : chunks_bounded srv)
  (fuel : nat) (Hf : S (List.length (all_entries (Z.to_nat BUFFER_SIZE + 2))) <= fuel) :
  crawl srv fuel <> OutOfFuel /\
  (forall fuel' lst d, crawl srv fuel' = Finished lst d ->
     NoDup d /\ d = dir_records lst).
Proof.
  split.
  - unfold crawl.
    destruct (indexing (request_line "") (srv "") []) as [l0 |] eqn:E;
      [| discriminate].
    apply (crawl_loop_fuel_bounded srv Hb); [| | lia | lia].
    + eapply indexing_NoDup; eauto using NoDup_nil.
    + apply (indexing_bounded srv Hb "" [] l0); [cbn; lia | intros x [] | exact E].
  - intros fuel' lst d H.
    destruct (crawl_inv srv fuel' lst d H) as [Hnd ->].
    split; [now apply dir_records_NoDup | reflexivity].
Qed.

Lemma crawl_bounded_chunks_terminates_witness :
  chunks_bounded srv_cycle /\
  crawl srv_cycle (S (List.length (all_entries (Z.to_nat BUFFER_SIZE + 2)))) <> OutOfFuel.
Proof.
  assert (Hb : chunks_bounded srv_cycle).
  { intros sel; unfold srv_cycle; destruct (_ || _);
      repeat constructor; apply Nat.leb_le; vm_compute; reflexivity. }
  split; [exact Hb |].
  exact (proj1 (crawl_bounded_chunks_terminates srv_cycle Hb _ (le_n _))).
Defined.

(** C3: after the analysis, for text files and for binary files alike,
    whenever neither the smallest nor the largest size is the sentinel -1,
    the smallest size is at most the largest. *)
Theorem text_binary_min_le_max (files : string -> file_trace) (f : nat)
  (lst : registry) (an : analysis) (H : evaluate files f lst = Some an) :
  (size_of_smallest_text_file (an_state an) <> (-1)%Z ->
   size_of_largest_text_file (an_state an) <> (-1)%Z ->
   (size_of_smallest_text_file (an_state an) <=
    size_of_largest_text_file (an_state an))%Z) /\
  (size_of_smallest_binary_file (an_state an) <> (-1)%Z ->
   size_of_largest_binary_file (an_state an) <> (-1)%Z ->
   (size_of_smallest_binary_file (an_state an) <=
    size_of_largest_binary_file (an_state an))%Z).
Proof.
  pose proof (evaluate_loop_sizes files f lst (an_state an)
                (evaluate_state _ _ _ _ H)) as [Ht Hb].
  unfold min_max_ok in *; split; intros H1 H2; lia.
Qed.

Lemma text_binary_min_le_max_witness :
  exists an, evaluate files_closed 4
               [mk_entry TEXT "/a"; mk_entry BINARY "/b"] = Some an /\
  (size_of_smallest_text_file (an_state an) <=
   size_of_largest_text_file (an_state an))%Z.
Proof.
  eexists; split; [reflexivity |].
  apply (proj1 (text_binary_min_le_max files_closed 4
                  [mk_entry TEXT "/a"; mk_entry BINARY "/b"] _ eq_refl));
    vm_compute; discriminate.
Defined.

(** C4 (code bug): a file whose transfer reaches [FILE_LIMIT] is to be
    reported TooLarge ("Stop evaluation if file is too large"); but when
    65536 bytes arrive in sixteen chunks and the server then stalls, the
    [select] of the next turn times out before the chunk already received
    is counted, and the meter reports a timeout (-2), not TooLarge (-1). *)
Lemma meter_stall_at_limit_times_out :
  transfer_bytes tr_stall = FILE_LIMIT /\
  fst (evaluate_file_size (request_line "/big") tr_stall []) = (-2)%Z.
Proof. split; vm_compute; reflexivity. Qed.




(** C6 (counterexample): the InvalidRef of a type-3 response to the
    selector [/bad] has the request line [/bad CR LF] as its record, not
    the selector [/bad]. *)
Lemma invalid_ref_record_is_request_line :
  indexing (request_line "/bad") ["3error" ++ crlf] [] =
  Some [mk_entry ERROR ("/bad" ++ crlf)] /\
  record (mk_entry ERROR ("/bad" ++ crlf)) <> "/bad".
Proof. split; [vm_compute; reflexivity | discriminate]. Qed.

(** C6 (amended): every type-3 line of the response to selector [sel]
    inserts the InvalidRef whose record is the request line [sel CR LF]
    (whatever the fields of the line), so repeated type-3 lines of the same
    request collapse to one entry. *)
Theorem invalid_ref_keyed_by_request (sel line : string) (lst : registry)
  (Hs : no_nul sel = true) (Hl : first_char line = "3"%char) :
  index_line line (request_line sel) lst =
  Some (add_item (mk_entry ERROR (request_line sel)) lst) /\
  add_item (mk_entry ERROR (request_line sel))
    (add_item (mk_entry ERROR (request_line sel)) lst) =
  add_item (mk_entry ERROR (request_line sel)) lst.
Proof.
  split.
  - rewrite index_line_unfold, Hl; cbn [Ascii.eqb first_char].
    unfold add_new; rewrite cstr_no_nul; [reflexivity |].
    unfold request_line; rewrite no_nul_app, Hs; reflexivity.
  - apply add_item_present, add_item_In; auto.
Qed.

Lemma invalid_ref_keyed_by_request_witness :
  no_nul "/bad" = true /\ first_char ("3error" ++ crlf) = "3"%char /\
  index_line ("3error" ++ crlf) (request_line "/bad") [] =
  Some [mk_entry ERROR ("/bad" ++ crlf)].
Proof.
  split; [reflexivity |]; split; [reflexivity |].
  rewrite (proj1 (invalid_ref_keyed_by_request "/bad" ("3error" ++ crlf) []
                    eq_refl eq_refl)).
  reflexivity.
Defined.

(** C7: a Text line without a tab ([0hello CR LF]) is not skipped:
    [extract_pathname] returns NULL and [index_line] dereferences it, so
    the parse crashes and the well-formed line after it is never read. *)
Theorem tabless_line_crashes :
  indexing (request_line "")
    [("0hello" ++ crlf ++ menu [mk_tuple "1"%char "d" "/d" "h" "70"])%string] [] = None.
Proof. vm_compute; reflexivity. Qed.

(** C8: with an empty root response the crawl finishes with an empty
    registry, and the analysis still opens the session for the smallest
    text file with a NULL selector ([strlen(NULL)] in [gopher_connect]);
    the same happens when the only text file is too large. *)
Theorem no_text_file_still_fetched (files : string -> file_trace) :
  crawl srv_empty 1 = Finished [] [] /\
  evaluate files 1 [] = Some (mk_analysis (eval_init []) [None] true) /\
  option_map print_crashed (evaluate files_too_large 3 [mk_entry TEXT "/t"]) =
  Some true.
Proof. split; [| split]; vm_compute; reflexivity. Qed.

(** C9: an ExternalRef whose host does not resolve ([nowhere.invalid])
    crashes the prober, since it tests the primary [server] instead of
    [ext_server] before dereferencing the latter; a host that resolves but
    refuses the connection is reported down. *)
Theorem unresolvable_external_crashes :
  indexing (request_line "")
    [menu [mk_tuple "1"%char "Ext" "" "nowhere.invalid" "70"]] [] =
  Some [mk_entry EXTERNAL ("nowhere.invalid" ++ tab ++ "70")] /\
  test_external_servers net_demo (Some 1%Z) 70
    (mk_entry EXTERNAL ("nowhere.invalid" ++ tab ++ "70")) = ProbeCrash /\
  test_external_servers net_demo (Some 1%Z) 70
    (mk_entry EXTERNAL ("example.com" ++ tab ++ "70")) =
  ProbeReport "example.com" "70" false.
Proof. split; [| split]; vm_compute; reflexivity. Qed.

(** C10: after the analysis the numbers of text and binary files are the
    numbers of Text and Binary items of the crawled registry, whatever the
    outcome (size, timeout, too large) of their metering. *)
Theorem text_binary_counts_all_files (files : string -> file_trace) (f : nat)
  (lst : registry) (an : analysis) (H : evaluate files f lst = Some an) :
  num_of_text_files (an_state an) = count_kind TEXT lst /\
  num_of_binary_files (an_state an) = count_kind BINARY lst.
Proof.
  destruct (evaluate_loop_counts files f lst (an_state an)
              (evaluate_state _ _ _ _ H)) as [_ [Ht [Hb [_ Happ]]]].
  destruct (appends_issues_prefix _ _ Happ) as [s [Es Hs]].
  rewrite Ht, Hb, Es, !count_kind_app.
  rewrite !(count_kind_issues _ s); try discriminate; auto.
  split; lia.
Qed.

Lemma text_binary_counts_all_files_witness :
  exists an,
    evaluate files_too_large 5 [mk_entry TEXT "/t"; mk_entry BINARY "/b"] = Some an /\
    num_of_text_files (an_state an) = 1%Z /\
    num_of_binary_files (an_state an) = 1%Z.
Proof.
  eexists; split; [reflexivity |].
  exact (text_binary_counts_all_files files_too_large 5
           [mk_entry TEXT "/t"; mk_entry BINARY "/b"] _ eq_refl).
Defined.

(* ================================================================== *)
(** * Further properties of the client *)

(* ------------------------------------------------------------------ *)
(** ** The parser and the registry *)

Lemma fold_add_incl (es : list entry) (l : registry) : incl es l -> fold_add es l = l.
Proof.
  revert l; induction es as [| e es IH]; intros l H; [reflexivity |].
  change (fold_add (e :: es) l) with (fold_add es (add_item e l)).
  rewrite add_item_present by (apply H; left; reflexivity).
  apply IH; intros x Hx; apply H; right; exact Hx.
Qed.

Lemma fold_add_fresh (es : list entry) (l : registry) :
  exists s, fold_add es l = (l ++ s)%list /\
    (forall x, In x s -> ~ In x l) /\ NoDup s.
Proof.
  revert l; induction es as [| e es IH]; intros l.
  - exists []; rewrite app_nil_r; repeat split; [intros x [] | constructor].
  - change (fold_add (e :: es) l) with (fold_add es (add_item e l)).
    destruct (in_dec entry_eq_dec e l) as [Hin | Hin].
    + rewrite add_item_present by exact Hin; apply IH.
    + rewrite add_item_absent by exact Hin.
      destruct (IH (l ++ [e])%list) as [s [Es [Hs Hnd]]].
      exists (e :: s); rewrite Es, <- app_assoc; split; [reflexivity |]; split.
      * intros x [<- | Hx]; [exact Hin |].
        intros Hl; apply (Hs x Hx); apply in_app_iff; left; exact Hl.
      * constructor; [| exact Hnd].
        intros He; apply (Hs e He); apply in_app_iff; right; left; reflexivity.
Qed.

(** X1: indexing a response never removes or reorders registry items: it
    appends, at the end, items that are new to the registry and pairwise
    distinct. *)
Theorem indexing_appends_fresh (request : string) (chunks : list string)
  (lst lst' : registry) (H : indexing request chunks lst = Some lst') :
  exists s, lst' = (lst ++ s)%list /\ (forall x, In x s -> ~ In x lst) /\ NoDup s.
Proof.
  destruct (indexing_independent request chunks) as [Hn | [es Hes]].
  - rewrite Hn in H; discriminate.
  - rewrite Hes in H; injection H as <-; apply fold_add_fresh.
Qed.

Lemma indexing_appends_fresh_witness :
  indexing (request_line "") [menu [t_hello]] [mk_entry DIRECTORY "/d"] =
    Some [mk_entry DIRECTORY "/d"; mk_entry TEXT "/hello"] /\
  exists s, [mk_entry DIRECTORY "/d"; mk_entry TEXT "/hello"] =
              ([mk_entry DIRECTORY "/d"] ++ s)%list /\
            (forall x, In x s -> ~ In x [mk_entry DIRECTORY "/d"]) /\ NoDup s.
Proof.
  split; [vm_compute; reflexivity |].
  exact (indexing_appends_fresh (request_line "") [menu [t_hello]]
           [mk_entry DIRECTORY "/d"] _ eq_refl).
Defined.

(** X2: indexing the same response a second time leaves the registry
    unchanged. *)
Theorem indexing_idempotent (request : string) (chunks : list string)
  (lst lst' : registry) (H : indexing request chunks lst = Some lst') :
  indexing request chunks lst' = Some lst'.
Proof.
  destruct (indexing_independent request chunks) as [Hn | [es Hes]].
  - rewrite Hn in H; discriminate.
  - rewrite Hes in H; injection H as <-; rewrite Hes; f_equal.
    apply fold_add_incl; intros x Hx; apply fold_add_In; right; exact Hx.
Qed.

Lemma indexing_idempotent_witness :
  indexing (request_line "") [menu [t_hello; t_rel]] [] = Some [mk_entry TEXT "/hello"] /\
  indexing (request_line "") [menu [t_hello; t_rel]] [mk_entry TEXT "/hello"] =
    Some [mk_entry TEXT "/hello"].
Proof.
  split; [vm_compute; reflexivity |].
  exact (indexing_idempotent (request_line "") [menu [t_hello; t_rel]] [] _ eq_refl).
Defined.




(* ------------------------------------------------------------------ *)
(** ** The crawl *)

(** The response to [sel] inserts fixed items, all of them already in [l]. *)
Definition served (srv : server) (sel : string) (l : registry) : Prop :=
  exists es, (forall l', indexing (request_line sel) (srv sel) l' = Some (fold_add es l'))
             /\ incl es l.

Lemma served_incl (srv : server) (sel : string) (l l' : registry) :
  incl l l' -> served srv sel l -> served srv sel l'.
Proof.
  intros Hi [es [Hes Hin]]; exists es; split; [exact Hes |].
  intros x Hx; apply Hi, Hin, Hx.
Qed.

Lemma served_closed (srv : server) (sel : string) (l : registry) :
  served srv sel l -> indexing (request_line sel) (srv sel) l = Some l.
Proof.
  intros [es [Hes Hin]]; rewrite Hes; f_equal; now apply fold_add_incl.
Qed.

Lemma crawl_loop_closed (srv : server) (f i : nat) (lst : registry)
  (d : list string) (lst' : registry) (d' : list string) :
  served srv "" lst ->
  (forall c, In c (firstn i lst) -> item_type c = DIRECTORY ->
     served srv (record c) lst) ->
  i <= List.length lst ->
  crawl_loop srv f i lst d = Finished lst' d' ->
  served srv "" lst' /\
  (forall c, In c lst' -> item_type c = DIRECTORY -> served srv (record c) lst').
Proof.
  revert i lst d; induction f as [| f IH]; intros i lst d Hr Hd Hi H;
    simpl in H; [discriminate |].
  destruct (nth_error lst i) as [c |] eqn:Hc.
  - assert (Hlt : i < List.length lst)
      by (apply nth_error_Some; rewrite Hc; discriminate).
    destruct (kind_eqb (item_type c) DIRECTORY) eqn:Hk.
    + destruct (indexing _ _ lst) as [l2 |] eqn:Hix; [| discriminate].
      destruct (indexing_independent (request_line (record c)) (srv (record c)))
        as [Hn | [es Hes]]; [rewrite Hn in Hix; discriminate |].
      rewrite Hes in Hix; injection Hix as Hl2.
      assert (Hinc : incl lst l2)
        by (intros x Hx; rewrite <- Hl2; apply fold_add_In; left; exact Hx).
      destruct (fold_add_prefix es lst) as [s [Es _]].
      apply (IH (S i) l2 (d ++ [record c])%list); auto.
      * eapply served_incl; eauto.
      * rewrite <- Hl2, Es, firstn_app_le by lia.
        rewrite (firstn_S_snoc _ _ _ Hc); intros x Hx Hkx.
        apply in_app_iff in Hx as [Hx | [<- | []]].
        -- eapply served_incl; [| apply Hd; auto].
           intros y Hy; apply in_app_iff; left; exact Hy.
        -- exists es; split; [exact Hes |].
           intros y Hy; rewrite <- Es; apply fold_add_In; right; exact Hy.
      * rewrite <- Hl2, Es, length_app; lia.
    + apply (IH (S i) lst d); auto.
      rewrite (firstn_S_snoc _ _ _ Hc); intros x Hx Hkx.
      apply in_app_iff in Hx as [Hx | [<- | []]]; [now apply Hd |].
      apply kind_eqb_eq in Hkx; rewrite Hkx in Hk; discriminate.
  - injection H as <- <-; split; [exact Hr |].
    apply nth_error_None in Hc; rewrite firstn_all2 in Hd by lia; exact Hd.
Qed.

(** X4: a finished crawl leaves a registry closed under the server's
    menus: fetching again the root or any directory of the registry and
    indexing the response would add nothing. *)
Theorem crawl_menus_closed (srv : server) (fuel : nat) (lst : registry)
  (d : list string) (H : crawl srv fuel = Finished lst d) :
  menus_closed srv lst.
Proof.
  unfold crawl in H; destruct (indexing (request_line "") (srv "") []) as [l0 |] eqn:E;
    [| discriminate].
  destruct (indexing_independent (request_line "") (srv ""))
    as [Hn | [es Hes]]; [rewrite Hn in E; discriminate |].
  rewrite Hes in E; injection E as E.
  destruct (crawl_loop_closed srv fuel 0 l0 [] lst d) as [Hr Hd]; auto.
  - exists es; split; [exact Hes |].
    intros x Hx; rewrite <- E; apply fold_add_In; right; exact Hx.
  - intros c [].
  - lia.
  - split; [now apply served_closed |].
    intros c Hc Hk; apply served_closed; auto.
Qed.

Lemma crawl_menus_closed_witness :
  crawl srv_cycle 3 = Finished [mk_entry DIRECTORY "/"] ["/"] /\
  menus_closed srv_cycle [mk_entry DIRECTORY "/"].
Proof.
  split; [vm_compute; reflexivity |].
  exact (crawl_menus_closed srv_cycle 3 _ _ eq_refl).
Defined.

Lemma first_char_cstr_slash (p : string) :
  first_char p = "/"%char -> first_char (cstr p) = "/"%char.
Proof.
  destruct p as [| c r]; cbn [first_char]; intros H; [discriminate |].
  subst c; reflexivity.
Qed.

Lemma abs_all_add (e : entry) (l : registry) :
  abs_item e = true -> (forall x, In x l -> abs_item x = true) ->
  forall x, In x (add_item e l) -> abs_item x = true.
Proof.
  intros He Hl x Hx; apply add_item_In in Hx as [Hx | ->]; auto.
Qed.

Lemma index_line_abs (line request : string) (lst l' : registry) :
  index_line line request lst = Some l' ->
  (forall x, In x lst -> abs_item x = true) ->
  forall x, In x l' -> abs_item x = true.
Proof.
  intros H Hl; unfold index_line in H.
  destruct (Ascii.eqb (first_char line) "3"%char).
  { injection H as <-; apply abs_all_add; auto. }
  match type of H with
  | context [match ?m with Some k => _ | None => _ end] => destruct m as [k |]
  end; [| injection H as <-; exact Hl].
  destruct (extract_pathname line) as [pn |]; [| discriminate].
  destruct (Ascii.eqb (first_char pn) "/"%char) eqn:Es.
  - injection H as <-; apply abs_all_add; auto.
    apply Ascii.eqb_eq in Es; unfold abs_item; cbn [item_type record].
    rewrite (first_char_cstr_slash pn Es); destruct k; reflexivity.
  - destruct (kind_eqb k DIRECTORY && _).
    + destruct pn as [| c after]; [discriminate |].
      injection H as <-; apply abs_all_add; auto.
    + injection H as <-; exact Hl.
Qed.

Lemma index_lines_abs (fuel : nat) (line request : string) (lst l' : registry) :
  index_lines fuel line request lst = Some l' ->
  (forall x, In x lst -> abs_item x = true) ->
  forall x, In x l' -> abs_item x = true.
Proof.
  revert line lst; induction fuel as [| f IH]; intros line lst H Hl;
    cbn [index_lines] in H; [injection H as <-; exact Hl |].
  destruct (find_next_line line) as [l1 n].
  destruct (index_line l1 request lst) as [l2 |] eqn:E; [| discriminate].
  pose proof (index_line_abs _ _ _ _ E Hl) as H2.
  destruct n as [n |]; [eapply IH; eauto | injection H as <-; exact H2].
Qed.

Lemma indexing_abs (request : string) (chunks : list string) (lst l' : registry) :
  indexing request chunks lst = Some l' ->
  (forall x, In x lst -> abs_item x = true) ->
  forall x, In x l' -> abs_item x = true.
Proof.
  revert lst; induction chunks as [| c cs IH]; intros lst H Hl;
    cbn [indexing] in H; [injection H as <-; exact Hl |].
  destruct (index_chunk c request lst) as [l2 |] eqn:E; [| discriminate].
  eapply IH; [exact H |]; eapply index_lines_abs; eauto.
Qed.

Lemma crawl_loop_abs (srv : server) (f i : nat) (lst : registry) (d : list string)
  (lst' : registry) (d' : list string) :
  crawl_loop srv f i lst d = Finished lst' d' ->
  (forall x, In x lst -> abs_item x = true) ->
  forall x, In x lst' -> abs_item x = true.
Proof.
  revert i lst d; induction f as [| f IH]; intros i lst d H Hl;
    simpl in H; [discriminate |].
  destruct (nth_error lst i) as [c |]; [| injection H as <- <-; exact Hl].
  destruct (kind_eqb (item_type c) DIRECTORY); [| eapply IH; eauto].
  destruct (indexing _ _ lst) as [l2 |] eqn:E; [| discriminate].
  eapply IH; [exact H |]; eapply indexing_abs; eauto.
Qed.

(** X5: in a finished crawl every Directory, Text and Binary item has a
    selector starting with [/], so every request sent after the root one
    is for a selector starting with [/]. *)
Theorem crawl_absolute_selectors (srv : server) (fuel : nat) (lst : registry)
  (d : list string) (H : crawl srv fuel = Finished lst d) :
  (forall x, In x lst -> abs_item x = true) /\
  (forall sel, In sel d -> first_char sel = "/"%char).
Proof.
  assert (Habs : forall x, In x lst -> abs_item x = true).
  { unfold crawl in H.
    destruct (indexing (request_line "") (srv "") []) as [l0 |] eqn:E; [| discriminate].
    eapply crawl_loop_abs; [exact H |]; eapply indexing_abs; [exact E | intros x []]. }
  split; [exact Habs |].
  destruct (crawl_inv srv fuel lst d H) as [_ ->].
  intros sel Hs; unfold dir_records in Hs; apply in_map_iff in Hs as [c [<- Hc]].
  apply filter_In in Hc as [Hc Hk]; specialize (Habs c Hc).
  unfold is_directory in Hk; apply kind_eqb_eq in Hk; unfold abs_item in Habs.
  rewrite Hk in Habs; now apply Ascii.eqb_eq.
Qed.

Lemma crawl_absolute_selectors_witness :
  crawl srv_cycle 3 = Finished [mk_entry DIRECTORY "/"] ["/"] /\
  first_char "/" = "/"%char.
Proof.
  split; [vm_compute; reflexivity |].
  apply (proj2 (crawl_absolute_selectors srv_cycle 3 _ _ eq_refl)).
  left; reflexivity.
Defined.

(* ------------------------------------------------------------------ *)
(** ** The size meter and the analysis *)

Lemma size_loop_effect (request : string) (st : list (select_res * recv_res))
  (bytes size : Z) (lst : registry) :
  fst (size_loop request bytes size st lst) = fst (size_loop request bytes size st []) /\
  (snd (size_loop request bytes size st lst) = lst \/
   (fst (size_loop request bytes size st lst) = (-2)%Z /\
    snd (size_loop request bytes size st lst) = add_new TIMEOUT request lst)).
Proof.
  revert bytes size; induction st as [| [s r] st IH]; intros bytes size;
    cbn [size_loop].
  - destruct (FILE_LIMIT <=? size + bytes)%Z; cbn [fst snd]; auto.
  - destruct s; [| cbn [fst snd]; auto |];
      destruct (FILE_LIMIT <=? size + bytes)%Z; cbn [fst snd]; auto;
      destruct r; cbn [fst snd]; auto.
Qed.

(** X6: the size meter's result does not depend on the registry, and the
    meter changes the registry only when it reports -2, then only by adding
    a TIMEOUT item whose record is the request line. *)
Theorem meter_registry_effect (request : string) (tr : file_trace) (lst : registry) :
  fst (evaluate_file_size request tr lst) = fst (evaluate_file_size request tr []) /\
  (snd (evaluate_file_size request tr lst) = lst \/
   (fst (evaluate_file_size request tr lst) = (-2)%Z /\
    snd (evaluate_file_size request tr lst) = add_new TIMEOUT request lst)).
Proof.
  unfold evaluate_file_size; destruct (first_recv tr) as [n | | [|]].
  - apply size_loop_effect.
  - cbn; auto.
  - cbn; auto.
  - cbn; auto.
Qed.

Lemma meter_eq (files : string -> file_trace) (c : entry) (lst : registry) :
  fst (evaluate_file_size (request_line (record c)) (files (record c)) lst) =
  meter files c.
Proof. apply meter_registry_effect. Qed.

Lemma measured_snoc (files : string -> file_trace) (k : item_kind) (l : registry)
  (c : entry) :
  measured files k (l ++ [c])%list =
  (measured files k l ++
   (if kind_eqb (item_type c) k && (0 <=? meter files c)%Z
    then [meter files c] else []))%list.
Proof.
  unfold measured; rewrite filter_app, map_app, filter_app; f_equal.
  cbn [filter]; destruct (kind_eqb (item_type c) k); cbn [map filter andb];
    [destruct (0 <=? meter files c)%Z |]; reflexivity.
Qed.

Lemma measured_issues (files : string -> file_trace) (k : item_kind) (s : registry) :
  k <> TIMEOUT -> k <> TOO_LARGE -> forallb is_issue s = true ->
  measured files k s = [].
Proof.
  intros H1 H2; induction s as [| x s IH]; intros Hs; [reflexivity |].
  cbn [forallb] in Hs; apply andb_true_iff in Hs as [Hx Hs].
  unfold measured in *; cbn [filter].
  destruct (kind_eqb (item_type x) k) eqn:E; [| now apply IH].
  apply kind_eqb_eq in E; unfold is_issue in Hx; rewrite E in Hx.
  destruct k; discriminate || contradiction.
Qed.

Lemma measured_nonneg (files : string -> file_trace) (k : item_kind) (l : registry) :
  forall z, In z (measured files k l) -> (0 <= z)%Z.
Proof.
  intros z Hz; unfold measured in Hz; apply filter_In in Hz as [_ Hz]; lia.
Qed.

Lemma fold_min_nonneg (r : list Z) (a : Z) :
  (0 <= a)%Z -> (forall z, In z r -> (0 <= z)%Z) -> (0 <= fold_left Z.min r a)%Z.
Proof.
  revert a; induction r as [| z r IH]; intros a Ha Hr; [exact Ha |].
  cbn [fold_left]; apply IH; [| intros y Hy; apply Hr; right; exact Hy].
  specialize (Hr z (or_introl eq_refl)); lia.
Qed.

Lemma fold_max_nonneg (r : list Z) (a : Z) :
  (0 <= a)%Z -> (0 <= fold_left Z.max r a)%Z.
Proof.
  revert a; induction r as [| z r IH]; intros a Ha; [exact Ha |].
  cbn [fold_left]; apply IH; lia.
Qed.

Lemma min_or_neg1_snoc (l : list Z) (z : Z) :
  (forall y, In y l -> (0 <= y)%Z) -> (0 <= z)%Z ->
  min_or_neg1 (l ++ [z])%list =
  (if ((min_or_neg1 l =? -1) || (z <? min_or_neg1 l))%Z then z else min_or_neg1 l).
Proof.
  intros Hl Hz; destruct l as [| a r]; [reflexivity |].
  cbn [min_or_neg1 app]; rewrite fold_left_app; cbn [fold_left].
  pose proof (fold_min_nonneg r a (Hl a (or_introl eq_refl))
                (fun y Hy => Hl y (or_intror Hy))) as Hm.
  destruct (Z.eqb_spec (fold_left Z.min r a) (-1)); [lia |].
  destruct (Z.ltb_spec z (fold_left Z.min r a)); cbn [orb]; lia.
Qed.

Lemma max_or_neg1_snoc (l : list Z) (z : Z) :
  (forall y, In y l -> (0 <= y)%Z) -> (0 <= z)%Z ->
  max_or_neg1 (l ++ [z])%list =
  (if ((max_or_neg1 l =? -1) || (max_or_neg1 l <? z))%Z then z else max_or_neg1 l).
Proof.
  intros Hl Hz; destruct l as [| a r]; [reflexivity |].
  cbn [max_or_neg1 app]; rewrite fold_left_app; cbn [fold_left].
  pose proof (fold_max_nonneg r a (Hl a (or_introl eq_refl))) as Hm.
  destruct (Z.eqb_spec (fold_left Z.max r a) (-1)); [lia |].
  destruct (Z.ltb_spec (fold_left Z.max r a) z); cbn [orb]; lia.
Qed.

Lemma min_or_neg1_nil (l : list Z) :
  (forall y, In y l -> (0 <= y)%Z) -> min_or_neg1 l = (-1)%Z -> l = [].
Proof.
  intros Hl; destruct l as [| a r]; [reflexivity |]; cbn [min_or_neg1].
  pose proof (fold_min_nonneg r a (Hl a (or_introl eq_refl))
                (fun y Hy => Hl y (or_intror Hy))); lia.
Qed.

Ltac kind_simpl :=
  repeat match goal with
         | |- context [kind_eqb ?a ?b] =>
             let v := eval vm_compute in (kind_eqb a b) in
             change (kind_eqb a b) with v
         end.

Ltac proj_simpl :=
  cbn [set_list ev_list size_of_smallest_binary_file size_of_largest_binary_file
       size_of_smallest_text_file smallest_text_file size_of_largest_text_file] in *.

Lemma eval_entry_sizes_exact (files : string -> file_trace) (c : entry)
  (e : eval_state) (P : registry) :
  sizes_exact files P e -> sizes_exact files (P ++ [c])%list (eval_entry files c e).
Proof.
  intros [B1 [B2 [T1 [T2 T3]]]].
  pose proof (meter_eq files c (ev_list e)) as Hm.
  pose proof (evaluate_file_size_range (request_line (record c))
                (files (record c)) (ev_list e)) as Hr.
  pose proof (measured_nonneg files TEXT P) as NT.
  pose proof (measured_nonneg files BINARY P) as NB.
  unfold sizes_exact; rewrite !measured_snoc.
  unfold eval_entry; destruct (item_type c); kind_simpl; cbn [andb];
    rewrite ?app_nil_r; proj_simpl; try exact (conj B1 (conj B2 (conj T1 (conj T2 T3)))).
  - unfold eval_text.
    destruct (evaluate_file_size (request_line (record c)) (files (record c))
                (ev_list e)) as [fs l]; cbn [fst] in Hm, Hr; subst fs.
    unfold meter_result in Hr.
    destruct (Z.eqb_spec (meter files c) (-1)) as [E | E];
      [rewrite E; proj_simpl; rewrite !app_nil_r; exact (conj B1 (conj B2 (conj T1 (conj T2 T3)))) |].
    destruct (Z.eqb_spec (meter files c) (-2)) as [E2 | E2];
      [rewrite E2; proj_simpl; rewrite !app_nil_r; exact (conj B1 (conj B2 (conj T1 (conj T2 T3)))) |].
    assert (Hfs : (0 <= meter files c)%Z) by lia.
    replace (0 <=? meter files c)%Z with true by (symmetry; apply Z.leb_le; exact Hfs).
    rewrite ?app_nil_r, min_or_neg1_snoc by assumption; rewrite <- T1.
    destruct ((size_of_smallest_text_file e =? -1) || (meter files c <? size_of_smallest_text_file e))%Z
      eqn:Es; cbn [size_of_smallest_binary_file size_of_largest_binary_file
                   size_of_smallest_text_file smallest_text_file size_of_largest_text_file];
      (split; [exact B1 |]); (split; [exact B2 |]); (split; [reflexivity |]).
    + split.
      * split; [discriminate | intros H; destruct (measured files TEXT P); discriminate].
      * intros Hb; rewrite last_last; rewrite B2, Hb; cbn [max_or_neg1].
        destruct (Z.ltb_spec (-1) (meter files c)); [| lia].
        rewrite orb_true_r; reflexivity.
    + split.
      * split; [intros H; apply T2 in H; rewrite H in T1; cbn in T1; rewrite T1 in Es;
                discriminate |
                intros H; destruct (measured files TEXT P); discriminate].
      * intros Hb; rewrite last_last; rewrite B2, Hb; cbn [max_or_neg1].
        destruct (Z.ltb_spec (-1) (meter files c)); [| lia].
        rewrite orb_true_r; reflexivity.
  - unfold eval_binary.
    destruct (evaluate_file_size (request_line (record c)) (files (record c))
                (ev_list e)) as [fs l]; cbn [fst] in Hm, Hr; subst fs.
    unfold meter_result in Hr.
    destruct (Z.eqb_spec (meter files c) (-1)) as [E | E];
      [rewrite E; proj_simpl; rewrite !app_nil_r; exact (conj B1 (conj B2 (conj T1 (conj T2 T3)))) |].
    destruct (Z.eqb_spec (meter files c) (-2)) as [E2 | E2];
      [rewrite E2; proj_simpl; rewrite !app_nil_r; exact (conj B1 (conj B2 (conj T1 (conj T2 T3)))) |].
    assert (Hfs : (0 <= meter files c)%Z) by lia.
    replace (0 <=? meter files c)%Z with true by (symmetry; apply Z.leb_le; exact Hfs).
    rewrite ?app_nil_r; proj_simpl.
    rewrite min_or_neg1_snoc, max_or_neg1_snoc by assumption.
    rewrite <- B1, <- B2.
    split; [reflexivity |]; split; [reflexivity |]; split; [exact T1 |]; split; [exact T2 |].
    intros H; destruct (measured files BINARY P); discriminate.
Qed.

Lemma measured_app (files : string -> file_trace) (k : item_kind) (l1 l2 : registry) :
  measured files k (l1 ++ l2)%list = (measured files k l1 ++ measured files k l2)%list.
Proof. unfold measured; now rewrite filter_app, map_app, filter_app. Qed.

Lemma evaluate_sizes_exact (files : string -> file_trace) (f : nat) (lst : registry)
  (an : analysis) :
  evaluate files f lst = Some an -> sizes_exact files lst (an_state an).
Proof.
  intros H; pose proof (evaluate_state _ _ _ _ H) as Hl.
  destruct (evaluate_loop_counts _ _ _ _ Hl) as [_ [_ [_ [_ Happ]]]].
  destruct (appends_issues_prefix _ _ Happ) as [s [Es Hs]].
  set (Inv := fun i e => i <= List.length (ev_list e) /\
                         sizes_exact files (firstn i (ev_list e)) e).
  destruct (evaluate_loop_inv files Inv) with (f := f) (i := 0)
    (e := eval_init lst) (e' := an_state an) as [i' [[Hle Hx] Hlen]]; auto.
  - intros i e c [Hi Hx] Hc.
    assert (Hlt : i < List.length (ev_list e))
      by (apply nth_error_Some; rewrite Hc; discriminate).
    destruct (appends_issues_prefix _ _ (eval_entry_appends files c e)) as [s' [Es' _]].
    assert (Hfirst : firstn (S i) (ev_list (eval_entry files c e)) =
                     (firstn i (ev_list e) ++ [c])%list)
      by (rewrite Es', firstn_app_le by lia; now apply firstn_S_snoc).
    split; [rewrite Es', length_app; lia |].
    rewrite Hfirst; now apply eval_entry_sizes_exact.
  - split; [cbn; lia |]; cbn; repeat split; discriminate.
  - rewrite firstn_all2 in Hx by lia; rewrite Es in Hx.
    unfold sizes_exact in *; rewrite !measured_app in Hx.
    rewrite !(measured_issues files _ s) in Hx by (discriminate || exact Hs).
    rewrite !app_nil_r in Hx; exact Hx.
Qed.

(** X7: after the analysis the numbers of directories and of invalid
    references are the numbers of Directory and InvalidRef items of the
    crawled registry. *)
Theorem evaluate_dir_invalid_counts (files : string -> file_trace) (f : nat)
  (lst : registry) (an : analysis) (H : evaluate files f lst = Some an) :
  num_of_directories (an_state an) = count_kind DIRECTORY lst /\
  num_of_invalid_references (an_state an) = count_kind ERROR lst.
Proof.
  destruct (evaluate_loop_counts files f lst (an_state an)
              (evaluate_state _ _ _ _ H)) as [Hd [_ [_ [Hi Happ]]]].
  destruct (appends_issues_prefix _ _ Happ) as [s [Es Hs]].
  rewrite Hd, Hi, Es, !count_kind_app.
  rewrite !(count_kind_issues _ s); try discriminate; auto.
  split; lia.
Qed.

Lemma evaluate_dir_invalid_counts_witness :
  exists an,
    evaluate files_closed 4 [mk_entry DIRECTORY "/"; mk_entry ERROR ("/x" ++ crlf);
                             mk_entry DIRECTORY "/d"] = Some an /\
    num_of_directories (an_state an) = 2%Z /\
    num_of_invalid_references (an_state an) = 1%Z.
Proof.
  eexists; split; [reflexivity |].
  exact (evaluate_dir_invalid_counts files_closed 4
           [mk_entry DIRECTORY "/"; mk_entry ERROR ("/x" ++ crlf);
            mk_entry DIRECTORY "/d"] _ eq_refl).
Defined.

(** X8: the analysis keeps every item of the crawled registry in place; the
    only items it adds are TIMEOUT and TOO_LARGE items, after them. *)
Theorem evaluate_appends_only_issues (files : string -> file_trace) (f : nat)
  (lst : registry) (an : analysis) (H : evaluate files f lst = Some an) :
  exists s, ev_list (an_state an) = (lst ++ s)%list /\
    forall x, In x s -> item_type x = TIMEOUT \/ item_type x = TOO_LARGE.
Proof.
  destruct (evaluate_loop_counts files f lst (an_state an)
              (evaluate_state _ _ _ _ H)) as [_ [_ [_ [_ Happ]]]].
  destruct (appends_issues_prefix _ _ Happ) as [s [Es Hs]].
  exists s; split; [exact Es |].
  intros x Hx; rewrite forallb_forall in Hs; specialize (Hs x Hx).
  unfold is_issue in Hs; destruct (item_type x); auto; discriminate.
Qed.

Lemma evaluate_appends_only_issues_witness :
  exists an,
    evaluate files_too_large 3 [mk_entry TEXT "/t"] = Some an /\
    ev_list (an_state an) = [mk_entry TEXT "/t"; mk_entry TOO_LARGE "/t"] /\
    exists s, ev_list (an_state an) = ([mk_entry TEXT "/t"] ++ s)%list /\
      forall x, In x s -> item_type x = TIMEOUT \/ item_type x = TOO_LARGE.
Proof.
  eexists; split; [reflexivity |]; split; [reflexivity |].
  exact (evaluate_appends_only_issues files_too_large 3 [mk_entry TEXT "/t"] _ eq_refl).
Defined.

(** X9: the smallest and largest binary file sizes of the analysis are the
    minimum and maximum of the sizes measured for the Binary items (-1 if
    none was measured, i.e. all timed out or were too large). *)
Theorem evaluate_binary_extremes (files : string -> file_trace) (f : nat)
  (lst : registry) (an : analysis) (H : evaluate files f lst = Some an) :
  size_of_smallest_binary_file (an_state an) = min_or_neg1 (measured files BINARY lst) /\
  size_of_largest_binary_file (an_state an) = max_or_neg1 (measured files BINARY lst).
Proof.
  destruct (evaluate_sizes_exact files f lst an H) as [B1 [B2 _]]; auto.
Qed.

Lemma evaluate_binary_extremes_witness :
  exists an,
    evaluate files_sizes 3 [mk_entry BINARY "/a"; mk_entry BINARY "/b"] = Some an /\
    size_of_smallest_binary_file (an_state an) = 4097%Z /\
    size_of_largest_binary_file (an_state an) = 5000%Z.
Proof.
  eexists; split; [reflexivity |].
  destruct (evaluate_binary_extremes files_sizes 3
              [mk_entry BINARY "/a"; mk_entry BINARY "/b"] _ eq_refl) as [E1 E2].
  rewrite E1, E2; split; vm_compute; reflexivity.
Defined.

(** X10: the smallest text file size is the minimum of the sizes measured
    for the Text items, and a smallest text file is recorded exactly when
    some text size was measured; but when no binary size has been measured,
    the largest text file size is the size measured last, not the largest
    one (its update compares against the largest binary size). *)
Theorem evaluate_text_extremes (files : string -> file_trace) (f : nat)
  (lst : registry) (an : analysis) (H : evaluate files f lst = Some an) :
  size_of_smallest_text_file (an_state an) = min_or_neg1 (measured files TEXT lst) /\
  (smallest_text_file (an_state an) = None <-> measured files TEXT lst = []) /\
  (measured files BINARY lst = [] ->
   size_of_largest_text_file (an_state an) = last (measured files TEXT lst) (-1)%Z).
Proof.
  destruct (evaluate_sizes_exact files f lst an H) as [_ [_ T]]; exact T.
Qed.

Lemma evaluate_text_extremes_witness :
  exists an,
    evaluate files_sizes 3 [mk_entry TEXT "/a"; mk_entry TEXT "/b"] = Some an /\
    measured files_sizes TEXT [mk_entry TEXT "/a"; mk_entry TEXT "/b"] = [5000; 4097]%Z /\
    size_of_largest_text_file (an_state an) = 4097%Z.
Proof.
  eexists; split; [reflexivity |]; split; [vm_compute; reflexivity |].
  rewrite (proj2 (proj2 (evaluate_text_extremes files_sizes 3
              [mk_entry TEXT "/a"; mk_entry TEXT "/b"] _ eq_refl)))
    by (vm_compute; reflexivity).
  vm_compute; reflexivity.
Defined.

(* ------------------------------------------------------------------ *)
(** ** Printing the smallest text file *)

Lemma str_app_nil_r (s : string) : s ++ EmptyString = s.
Proof. induction s as [| c s IH]; simpl; [reflexivity | now rewrite IH]. Qed.

Lemma cut_eof_no_eof (s : string) : has_eof s = false -> cut_eof s = s.
Proof.
  induction s as [| c s IH]; intros H; [reflexivity |].
  cbn [has_eof] in H; apply orb_false_iff in H as [H1 H2].
  cbn [cut_eof]; rewrite H1, (IH H2); reflexivity.
Qed.

(** The marker cannot start inside [a ++ ".\r\n"] before the marker
    itself, unless it already starts inside [a]. *)
Lemma prefix_eof_before (c : ascii) (a t : string) :
  String.prefix eof_marker (String c a) = false ->
  String.prefix eof_marker (String c (a ++ eof_marker ++ t)) = false.
Proof.
  unfold eof_marker; intros H; destruct a as [| x [| y a]];
    cbn [String.prefix append] in *;
    repeat (match goal with
            | |- context [ascii_dec ?u ?v] => destruct (ascii_dec u v); try subst
            end);
    solve [ reflexivity | unfold CR, LF in *; discriminate
          | destruct a; cbn [String.prefix] in *; discriminate ].
Qed.

Lemma cut_eof_at_marker (a t : string) :
  has_eof a = false -> cut_eof (a ++ eof_marker ++ t) = a.
Proof.
  induction a as [| c a IH]; intros H.
  - destruct t; cbn; reflexivity.
  - cbn [has_eof] in H; apply orb_false_iff in H as [H1 H2].
    change (String c a ++ eof_marker ++ t) with (String c (a ++ eof_marker ++ t)).
    cbn [cut_eof]; rewrite (prefix_eof_before c a t H1), (IH H2); reflexivity.
Qed.

Lemma cstr_app_no_nul (a t : string) : no_nul a = true -> cstr (a ++ t) = a ++ cstr t.
Proof.
  induction a as [| c a IH]; intros H; [reflexivity |].
  cbn [no_nul] in H; apply andb_true_iff in H as [Hc H].
  apply negb_true_iff in Hc; simpl; rewrite Hc, (IH H); reflexivity.
Qed.

(** A chunk that fits: non-empty and shorter than the buffer. *)
Definition fits (b : string) : bool :=
  (0 <? Z.of_nat (String.length b))%Z && (Z.of_nat (String.length b) <? BUFFER_SIZE)%Z.

Lemma print_chunk_fits (b : string) :
  fits b = true -> print_chunk (DataBytes b) = Some (cut_eof (cstr b)).
Proof.
  unfold fits, print_chunk; cbn [recv_len]; intros H.
  apply andb_true_iff in H as [_ H]; apply Z.ltb_lt in H.
  destruct (Z.leb_spec BUFFER_SIZE (Z.of_nat (String.length b))); [lia | reflexivity].
Qed.

Lemma print_loop_chunks (request : string) (cs : list string) :
  forall c out lst, forallb fits (c :: cs) = true ->
  print_loop request (DataBytes c)
    (map (fun b => (SelReady, DataBytes b)) cs ++ [(SelReady, DataClosed)])%list out lst
  = Some (0%Z, out ++ String.concat EmptyString (map (fun b => cut_eof (cstr b)) (c :: cs)),
          lst).
Proof.
  induction cs as [| c' cs IH]; intros c out lst H;
    cbn [forallb] in H; apply andb_true_iff in H as [Hc H].
  - cbn [map app print_loop]; rewrite (print_chunk_fits c Hc); reflexivity.
  - cbn [map app print_loop]; rewrite (print_chunk_fits c Hc).
    pose proof H as H'; cbn [forallb] in H'; apply andb_true_iff in H' as [Hc' _].
    unfold fits in Hc'; apply andb_true_iff in Hc' as [Hpos _].
    cbn [recv_len]; rewrite Hpos.
    rewrite (IH c' (out ++ cut_eof (cstr c)) lst H).
    cbn [map String.concat]; rewrite str_app_assoc; reflexivity.
Qed.

Lemma print_response_chunks (request c : string) (cs : list string) (lst : registry) :
  forallb fits (c :: cs) = true ->
  print_response request (chunks_trace c cs) lst
  = Some (0%Z, print_header ++
               String.concat EmptyString (map (fun b => cut_eof (cstr b)) (c :: cs)), lst).
Proof.
  intros H; unfold print_response, chunks_trace; cbn [c_first c_steps recv_len].
  pose proof H as H'; cbn [forallb] in H'; apply andb_true_iff in H' as [Hc _].
  unfold fits in Hc; apply andb_true_iff in Hc as [Hpos _]; apply Z.ltb_lt in Hpos.
  destruct (Z.eqb_spec (Z.of_nat (String.length c)) 0); [lia |].
  exact (print_loop_chunks request cs c print_header lst H).
Qed.

Lemma plain_chunk_fits (b : string) : plain_chunk b = true -> fits b = true.
Proof.
  unfold plain_chunk, fits; intros H.
  apply andb_true_iff in H as [H _]; apply andb_true_iff in H as [H _]; exact H.
Qed.

Lemma plain_chunk_print (b : string) : plain_chunk b = true -> cut_eof (cstr b) = b.
Proof.
  unfold plain_chunk; intros H.
  apply andb_true_iff in H as [H He]; apply andb_true_iff in H as [_ Hn].
  apply negb_true_iff in He; rewrite (cstr_no_nul b Hn); exact (cut_eof_no_eof b He).
Qed.

Lemma concat_empty_cons (x : string) (l : list string) :
  String.concat EmptyString (x :: l) = x ++ String.concat EmptyString l.
Proof. destruct l; cbn [String.concat]; [now rewrite str_app_nil_r | reflexivity]. Qed.

Lemma print_loop_timeout (request : string) (r : recv_data)
  (rest : list (select_res * recv_data)) (cs : list string) :
  forall c out lst, forallb fits (c :: cs) = true ->
  print_loop request (DataBytes c)
    (map (fun b => (SelReady, DataBytes b)) cs ++ (SelTimeout, r) :: rest)%list out lst
  = Some ((-1)%Z,
          out ++ String.concat EmptyString
                   (map (fun b => cut_eof (cstr b)) (removelast (c :: cs))),
          add_new TIMEOUT request lst).
Proof.
  induction cs as [| c' cs IH]; intros c out lst H;
    cbn [forallb] in H; apply andb_true_iff in H as [Hc H].
  - cbn; now rewrite str_app_nil_r.
  - cbn [map app print_loop]; rewrite (print_chunk_fits c Hc).
    pose proof H as H'; cbn [forallb] in H'; apply andb_true_iff in H' as [Hc' _].
    unfold fits in Hc'; apply andb_true_iff in Hc' as [Hpos _].
    cbn [recv_len]; rewrite Hpos.
    rewrite (IH c' (out ++ cut_eof (cstr c)) lst H).
    change (removelast (c :: c' :: cs)) with (c :: removelast (c' :: cs)).
    cbn [map]; rewrite concat_empty_cons, str_app_assoc; reflexivity.
Qed.

(** X11: a response of chunks that each fit in the buffer and hold no NUL
    and no [".\r\n"] is printed after the header exactly as received, all
    of it, and the registry is left alone. *)
Theorem print_response_echo (request c : string) (cs : list string) (lst : registry)
  (H : forallb plain_chunk (c :: cs) = true) :
  print_response request (chunks_trace c cs) lst
  = Some (0%Z, print_header ++ String.concat EmptyString (c :: cs), lst).
Proof.
  assert (Hf : forallb fits (c :: cs) = true).
  { apply forallb_forall; intros b Hb.
    exact (plain_chunk_fits b (proj1 (forallb_forall _ _) H b Hb)). }
  rewrite (print_response_chunks request c cs lst Hf).
  rewrite (map_ext_in _ (fun b => b) (c :: cs)), map_id; [reflexivity |].
  intros b Hb; exact (plain_chunk_print b (proj1 (forallb_forall _ _) H b Hb)).
Qed.

Lemma print_response_echo_witness :
  forallb plain_chunk ["Hello, "; "world"] = true /\
  print_response (request_line "/t") (chunks_trace "Hello, " ["world"]) []
  = Some (0%Z, print_header ++ "Hello, world", []).
Proof.
  split; [vm_compute; reflexivity |].
  exact (print_response_echo (request_line "/t") "Hello, " ["world"] [] eq_refl).
Defined.

(** X12: a [".\r\n"] inside a chunk cuts only that chunk: what follows it
    in the same chunk is not printed, but the chunks received after it are
    still read and printed. *)
Theorem print_response_eof_cuts_chunk (request a b : string) (cs : list string)
  (lst : registry) (Ha : no_nul a = true) (He : has_eof a = false)
  (Hf : fits (a ++ eof_marker ++ b) = true) (Hcs : forallb plain_chunk cs = true) :
  print_response request (chunks_trace (a ++ eof_marker ++ b) cs) lst
  = Some (0%Z, print_header ++ String.concat EmptyString (a :: cs), lst).
Proof.
  assert (Hall : forallb fits ((a ++ eof_marker ++ b) :: cs) = true).
  { cbn [forallb]; rewrite Hf; cbn [andb].
    apply forallb_forall; intros x Hx.
    exact (plain_chunk_fits x (proj1 (forallb_forall _ _) Hcs x Hx)). }
  rewrite (print_response_chunks request _ cs lst Hall).
  cbn [map]; rewrite (cstr_app_no_nul a _ Ha).
  change (cstr (eof_marker ++ b)) with (eof_marker ++ cstr b).
  rewrite (cut_eof_at_marker a (cstr b) He).
  rewrite (map_ext_in _ (fun x => x) cs), map_id; [reflexivity |].
  intros x Hx; exact (plain_chunk_print x (proj1 (forallb_forall _ _) Hcs x Hx)).
Qed.

Lemma print_response_eof_cuts_chunk_witness :
  no_nul "abc" = true /\ has_eof "abc" = false /\
  fits ("abc" ++ eof_marker ++ "junk") = true /\ forallb plain_chunk ["def"] = true /\
  print_response (request_line "/t") (chunks_trace ("abc" ++ eof_marker ++ "junk") ["def"]) []
  = Some (0%Z, print_header ++ "abcdef", []).
Proof.
  split; [reflexivity |]; split; [reflexivity |]; split; [vm_compute; reflexivity |].
  split; [vm_compute; reflexivity |].
  exact (print_response_eof_cuts_chunk (request_line "/t") "abc" "junk" ["def"] []
           eq_refl eq_refl eq_refl eq_refl).
Defined.

(** X13: when the reads are answered in time but the transfer ends with a
    [select] that times out, the function returns -1 and adds a Timeout
    item keyed by the request; the chunk received last, before that
    [select], is dropped without being printed. *)
Theorem print_response_timeout_drops_last (request c : string) (cs : list string)
  (r : recv_data) (rest : list (select_res * recv_data)) (lst : registry)
  (H : forallb fits (c :: cs) = true) :
  print_response request
    (mk_ctrace (DataBytes c)
       (map (fun b => (SelReady, DataBytes b)) cs ++ (SelTimeout, r) :: rest)%list) lst
  = Some ((-1)%Z,
          print_header ++ String.concat EmptyString
                             (map (fun b => cut_eof (cstr b)) (removelast (c :: cs))),
          add_new TIMEOUT request lst).
Proof.
  unfold print_response; cbn [c_first c_steps recv_len].
  pose proof H as H'; cbn [forallb] in H'; apply andb_true_iff in H' as [Hc _].
  unfold fits in Hc; apply andb_true_iff in Hc as [Hpos _]; apply Z.ltb_lt in Hpos.
  destruct (Z.eqb_spec (Z.of_nat (String.length c)) 0); [lia |].
  exact (print_loop_timeout request r rest cs c print_header lst H).
Qed.

Lemma print_response_timeout_drops_last_witness :
  forallb fits ["abc"; "def"] = true /\
  print_response (request_line "/t")
    (mk_ctrace (DataBytes "abc") [(SelReady, DataBytes "def"); (SelTimeout, DataClosed)]) []
  = Some ((-1)%Z, print_header ++ "abc", add_new TIMEOUT (request_line "/t") []).
Proof.
  split; [vm_compute; reflexivity |].
  exact (print_response_timeout_drops_last (request_line "/t") "abc" ["def"]
           DataClosed [] [] eq_refl).
Defined.

Lemma print_chunk_full (b : string) :
  Z.of_nat (String.length b) = BUFFER_SIZE -> print_chunk (DataBytes b) = None.
Proof.
  intros H; unfold print_chunk; cbn [recv_len]; rewrite H, Z.leb_refl; reflexivity.
Qed.

Lemma full_last_nonempty (c : string) (cs : list string) :
  forallb fits (removelast (c :: cs)) = true ->
  Z.of_nat (String.length (last (c :: cs) EmptyString)) = BUFFER_SIZE ->
  (0 < Z.of_nat (String.length c))%Z.
Proof.
  destruct cs as [| x r]; cbn [removelast last].
  - intros _ H; rewrite H; reflexivity.
  - intros H _; cbn [forallb] in H; apply andb_true_iff in H as [H _].
    unfold fits in H; apply andb_true_iff in H as [H _]; apply Z.ltb_lt, H.
Qed.

Lemma print_loop_full (request : string) (post : list (select_res * recv_data))
  (Hsel : match post with (SelTimeout, _) :: _ => False | _ => True end)
  (cs : list string) :
  forall c out lst,
  forallb fits (removelast (c :: cs)) = true ->
  Z.of_nat (String.length (last (c :: cs) EmptyString)) = BUFFER_SIZE ->
  print_loop request (DataBytes c)
    (map (fun b => (SelReady, DataBytes b)) cs ++ post)%list out lst = None.
Proof.
  induction cs as [| c' cs IH]; intros c out lst Hfit Hfull.
  - cbn [last] in Hfull; cbn [map app].
    destruct post as [| [[] next] rest]; cbn [print_loop];
      rewrite ?(print_chunk_full c Hfull); [reflexivity | reflexivity | contradiction | reflexivity].
  - change (removelast (c :: c' :: cs)) with (c :: removelast (c' :: cs)) in Hfit.
    change (last (c :: c' :: cs) EmptyString) with (last (c' :: cs) EmptyString) in Hfull.
    cbn [forallb] in Hfit; apply andb_true_iff in Hfit as [Hc Hfit].
    cbn [map app print_loop]; rewrite (print_chunk_fits c Hc); cbn [recv_len].
    rewrite (proj2 (Z.ltb_lt _ _) (full_last_nonempty c' cs Hfit Hfull)).
    exact (IH c' _ lst Hfit Hfull).
Qed.

(** X14: when one [recv] returns a full [BUFFER_SIZE] bytes, at any point
    of the transfer after chunks that fit the buffer, and the [select]
    after it answers, [buffer[bytes_received] = '\0'] writes one byte past
    the end of the buffer: the model has no result for the call. *)
Theorem print_response_full_chunk_overflows (request c : string) (cs : list string)
  (post : list (select_res * recv_data)) (lst : registry)
  (Hfit : forallb fits (removelast (c :: cs)) = true)
  (Hfull : Z.of_nat (String.length (last (c :: cs) EmptyString)) = BUFFER_SIZE)
  (Hsel : match post with (SelTimeout, _) :: _ => False | _ => True end) :
  print_response request
    (mk_ctrace (DataBytes c) (map (fun b => (SelReady, DataBytes b)) cs ++ post)%list) lst
  = None.
Proof.
  unfold print_response; cbn [c_first c_steps recv_len].
  pose proof (full_last_nonempty c cs Hfit Hfull) as Hpos.
  destruct (Z.eqb_spec (Z.of_nat (String.length c)) 0); [lia |].
  exact (print_loop_full request post Hsel cs c print_header lst Hfit Hfull).
Qed.

Lemma print_response_full_chunk_overflows_witness :
  forallb fits ["abc"; "def"] = true /\
  Z.of_nat (String.length (string_of_list_ascii (repeat "x"%char 4096))) = BUFFER_SIZE /\
  print_response (request_line "/t")
    (mk_ctrace (DataBytes "abc")
       [(SelReady, DataBytes "def");
        (SelReady, DataBytes (string_of_list_ascii (repeat "x"%char 4096)))]) []
  = None.
Proof.
  split; [vm_compute; reflexivity |]; split; [vm_compute; reflexivity |].
  exact (print_response_full_chunk_overflows (request_line "/t") "abc"
           ["def"; string_of_list_ascii (repeat "x"%char 4096)] [] []
           eq_refl eq_refl I).
Defined.

(* ------------------------------------------------------------------ *)
(** ** The probe of external servers *)













(** X17: if every item any menu of the server can produce lies in a
    fixed finite list [U], the crawl stops (finished or crashed) within
    [|U| + 1] loop iterations; and in every finished crawl, the
    directories requested are exactly the Directory items of the registry,
    in registry order, each requested once. *)
Theorem crawl_finite_menus_terminates (srv : server) (U : registry)
  (HU : menus_within srv U) (fuel : nat) (Hf : S (List.length U) <= fuel) :
  crawl srv fuel <> OutOfFuel /\
  (forall fuel' lst d, crawl srv fuel' = Finished lst d ->
     NoDup d /\ d = dir_records lst).
Proof.
  split.
  - unfold crawl.
    destruct (indexing (request_line "") (srv "") []) as [l0 |] eqn:E;
      [| discriminate].
    apply (crawl_loop_fuel srv U); auto; try lia.
    + eapply indexing_NoDup; eauto using NoDup_nil.
    + specialize (HU ""); rewrite E in HU; exact HU.
  - intros fuel' lst d H.
    destruct (crawl_inv srv fuel' lst d H) as [Hnd ->].
    split; [now apply dir_records_NoDup | reflexivity].
Qed.

Lemma crawl_finite_menus_terminates_witness :
  menus_within srv_cycle U_cycle /\ S (List.length U_cycle) <= 2 /\
  crawl srv_cycle 2 <> OutOfFuel.
Proof.
  split; [exact menus_within_cycle |]; split; [cbn; lia |].
  exact (proj1 (crawl_finite_menus_terminates srv_cycle U_cycle
                  menus_within_cycle 2 (le_n 2))).
Defined.

(** X18: the meter returns a size [n] with [0 <= n < FILE_LIMIT],
    -1 (TooLarge) or -2 (timeout or failed receive); when no receive fails
    and no [select] times out, it returns -1 exactly when the bytes
    received reach [FILE_LIMIT] and the byte count otherwise, so 65535
    bytes give 65535 and 65536 bytes give TooLarge. *)
Theorem size_meter_outcomes (request : string) (tr : file_trace) (lst : registry) :
  meter_result (fst (evaluate_file_size request tr lst)) /\
  (stall_free tr = true ->
   fst (evaluate_file_size request tr lst) =
   (if (FILE_LIMIT <=? transfer_bytes tr)%Z then (-1)%Z else transfer_bytes tr)).
Proof.
  split; [apply evaluate_file_size_range | apply evaluate_file_size_total].
Qed.

Lemma size_meter_outcomes_witness :
  transfer_bytes (chunked_file 14 4095) = 65535%Z /\
  fst (evaluate_file_size (request_line "/f") (chunked_file 14 4095) []) = 65535%Z /\
  transfer_bytes (chunked_file 14 4096) = 65536%Z /\
  fst (evaluate_file_size (request_line "/f") (chunked_file 14 4096) []) = (-1)%Z.
Proof.
  split; [vm_compute; reflexivity |]; split.
  - rewrite (proj2 (size_meter_outcomes (request_line "/f") (chunked_file 14 4095) [])
               eq_refl).
    vm_compute; reflexivity.
  - split; [vm_compute; reflexivity |].
    rewrite (proj2 (size_meter_outcomes (request_line "/f") (chunked_file 14 4096) [])
               eq_refl).
    vm_compute; reflexivity.
Defined.
